(** * The peer-to-peer factory of the QRL node ([qrl/core/p2pfactory.py])

    A shallow embedding of [P2PFactory]: the gossip broadcaster
    ([broadcast], [register_and_broadcast]), the full-message requester
    ([RFM]), the consensus-record selector ([select_best_bkmr]) and the
    peer probes ([ping_peers], [get_synced_state]), followed by the
    properties the specification states about them.

    Python objects are mutated in place and exceptions unwind the stack
    while keeping the mutations made so far.  Every method is therefore a
    function from a state to an outcome (a value or a raised exception)
    paired with the state reached. *)

From Stdlib Require Import ZArith.
From Stdlib.Strings Require Import Byte.
From stdpp Require Import gmap strings list fin_maps.

Local Open Scope Z_scope.

(** ** Data *)

#[global] Instance byte_eq_dec : EqDecision Byte.byte := Byte.byte_eq_dec.
#[global] Instance byte_countable : Countable Byte.byte :=
  inj_countable Byte.to_N Byte.of_N Byte.of_to_N.

(** A Python [bytes] value. *)
Abbreviation bytes := (list Byte.byte).

(** A peer session ([P2PProtocol] instance).  The class defines no
    [__eq__], so [peer in some_list] compares object identities: a peer is
    its identity. *)
Abbreviation peer := nat.

(** The protobuf message [qrl_pb2.MR]; a fresh [qrl_pb2.MR()] has every
    field at its default. *)
Record MR := mkMR {
  mr_hash : bytes;
  mr_type : string;
  mr_stake_selector : bytes;
  mr_block_number : Z;
  mr_prev_headerhash : bytes;
  mr_reveal_hash : bytes
}.

Definition MR_new : MR := mkMR [] "" [] 0 [] [].

Definition set_hash (data : MR) (h : bytes) : MR :=
  mkMR h (mr_type data) (mr_stake_selector data) (mr_block_number data)
       (mr_prev_headerhash data) (mr_reveal_hash data).

Definition set_type (data : MR) (t : string) : MR :=
  mkMR (mr_hash data) t (mr_stake_selector data) (mr_block_number data)
       (mr_prev_headerhash data) (mr_reveal_hash data).

(** Exceptions.  All three are subclasses of Python's [Exception]:
    [queue.Empty], the [KeyError] of a failed dictionary subscript, and any
    other exception a collaborator raises. *)
Inductive exn :=
  | QueueEmpty
  | KeyError (key : bytes)
  | OtherException (what : string).

#[global] Instance exn_eq_dec : EqDecision exn.
Proof. solve_decision. Defined.

Inductive result (A : Type) :=
  | Ok (a : A)
  | Raise (e : exn).
Arguments Ok {A} a.
Arguments Raise {A} e.

(** What a delayed call of the reactor invokes when it fires. *)
Inductive callback :=
  | CallRFM (data : MR)
  | CallSelectBestBkmr
  | CallSetPOS.

(** [reactor.callLater(delay, f, ...)]: the handle, the delay and the call. *)
Record DelayedCall := mkDelayedCall {
  dc_id : nat;
  dc_delay : Z;
  dc_callback : callback
}.

(** Modelled from the spec: the class [MessageRequest] of the message
    receipt registry is declared outside this file.  It is the spec's
    RequestState: the peers that announced the hash in announce order, the
    peers already asked, and the handle of the outstanding retry call. *)
Record MessageRequest := mkMessageRequest {
  peers_connection_list : list peer;
  already_requested_peers : list peer;
  callLater : option nat
}.

(** The frames handed to [peer.transport.write]: [wrap_message] of a
    message kind and, for [SFM] and [MR], the serialised record. *)
Inductive frame :=
  | SYNC
  | PING
  | SFM (data : MR)
  | MRframe (data : MR).

(** Calls that leave the factory, in the order they are made. *)
Inductive event :=
  | Write (p : peer) (f : frame)
  | Register (msg_hash : bytes) (msg_json msg_type : string)
  | LogInfo (line : string)
  | LogError (line : string)
  | LogErrorExn (e : exn).

(** A candidate of the selector's queue: the tuple [(score, hash)]. *)
Abbreviation candidate := (Z * bytes)%type.

(** The factory ([self]), the two tables of [self.master_mr], the pending
    calls of the reactor, and the calls made so far. *)
Record State := mkState {
  hash_msg : gmap bytes (string * string);
  requested_hash : gmap bytes MessageRequest;
  peer_connections : list peer;
  synced_peers : list peer;
  bkmr_blocknumber : Z;
  bkmr_priorityq : list candidate;
  bkmr_processor : nat;
  last_ping : option Z;
  delayed_calls : list DelayedCall;
  next_call : nat;
  trace : list event
}.

(** The collaborators the factory only reads: each peer's transport (a
    write either goes through or raises), the buffered chain, the
    configuration and the clock. *)
Record Env := mkEnv {
  transport_write : peer -> option exn;
  height : Z;
  get_block_score : Z -> result Z;
  message_receipt_timeout : Z;
  time_now : Z
}.

(** ** Field updates *)

Definition with_hash_msg (v : gmap bytes (string * string)) (st : State) : State :=
  mkState v (requested_hash st) (peer_connections st) (synced_peers st)
    (bkmr_blocknumber st) (bkmr_priorityq st) (bkmr_processor st) (last_ping st)
    (delayed_calls st) (next_call st) (trace st).

Definition with_requested_hash (v : gmap bytes MessageRequest) (st : State) : State :=
  mkState (hash_msg st) v (peer_connections st) (synced_peers st)
    (bkmr_blocknumber st) (bkmr_priorityq st) (bkmr_processor st) (last_ping st)
    (delayed_calls st) (next_call st) (trace st).

Definition with_synced_peers (v : list peer) (st : State) : State :=
  mkState (hash_msg st) (requested_hash st) (peer_connections st) v
    (bkmr_blocknumber st) (bkmr_priorityq st) (bkmr_processor st) (last_ping st)
    (delayed_calls st) (next_call st) (trace st).

Definition with_bkmr_priorityq (v : list candidate) (st : State) : State :=
  mkState (hash_msg st) (requested_hash st) (peer_connections st) (synced_peers st)
    (bkmr_blocknumber st) v (bkmr_processor st) (last_ping st)
    (delayed_calls st) (next_call st) (trace st).

Definition with_bkmr_processor (v : nat) (st : State) : State :=
  mkState (hash_msg st) (requested_hash st) (peer_connections st) (synced_peers st)
    (bkmr_blocknumber st) (bkmr_priorityq st) v (last_ping st)
    (delayed_calls st) (next_call st) (trace st).

Definition with_last_ping (v : option Z) (st : State) : State :=
  mkState (hash_msg st) (requested_hash st) (peer_connections st) (synced_peers st)
    (bkmr_blocknumber st) (bkmr_priorityq st) (bkmr_processor st) v
    (delayed_calls st) (next_call st) (trace st).

Definition with_reactor (calls : list DelayedCall) (next : nat) (st : State) : State :=
  mkState (hash_msg st) (requested_hash st) (peer_connections st) (synced_peers st)
    (bkmr_blocknumber st) (bkmr_priorityq st) (bkmr_processor st) (last_ping st)
    calls next (trace st).

Definition with_trace (v : list event) (st : State) : State :=
  mkState (hash_msg st) (requested_hash st) (peer_connections st) (synced_peers st)
    (bkmr_blocknumber st) (bkmr_priorityq st) (bkmr_processor st) (last_ping st)
    (delayed_calls st) (next_call st) v.

(** ** The monad of methods *)

Definition M (A : Type) : Type := State -> result A * State.

Definition ret {A} (a : A) : M A := fun st => (Ok a, st).

Definition raise {A} (e : exn) : M A := fun st => (Raise e, st).

Definition bind {A B} (m : M A) (k : A -> M B) : M B :=
  fun st =>
    match m st with
    | (Ok a, st') => k a st'
    | (Raise e, st') => (Raise e, st')
    end.

(** [try: m except ...: handler]. *)
Definition try_except {A} (m : M A) (handler : exn -> M A) : M A :=
  fun st =>
    match m st with
    | (Ok a, st') => (Ok a, st')
    | (Raise e, st') => handler e st'
    end.

Definition get {A} (f : State -> A) : M A := fun st => (Ok (f st), st).

Definition modify (f : State -> State) : M unit := fun st => (Ok tt, f st).

Definition lift {A} (r : result A) : M A := fun st => (r, st).

Declare Scope py_scope.
Delimit Scope py_scope with py.
Notation "'do' x <- m ; k" := (bind m (fun x => k))
  (at level 10, x name, m at level 100, k at level 200) : py_scope.
Notation "'do' ' pat <- m ; k" :=
  (bind m (fun x => match x with pat => k end))
  (at level 10, pat pattern, m at level 100, k at level 200) : py_scope.
Notation "m ;; k" := (bind m (fun _ => k))
  (at level 100, k at level 200, right associativity) : py_scope.
Local Open Scope py_scope.

(** A call that leaves the factory is appended to the trace. *)
Definition emit (e : event) : M unit :=
  modify (fun st => with_trace (trace st ++ [e]) st).

(** [peer.transport.write(frame)]. *)
Definition transport_write_to (env : Env) (p : peer) (f : frame) : M unit :=
  match transport_write env p with
  | Some e => raise e
  | None => emit (Write p f)
  end.

(** [reactor.callLater(delay, f, ...)] returns the handle of the new call. *)
Definition reactor_callLater (delay : Z) (cb : callback) : M nat :=
  fun st =>
    let id := next_call st in
    (Ok id,
     with_reactor (delayed_calls st ++ [mkDelayedCall id delay cb]) (S id) st).

(** [d[key]] on a dictionary of request states: a missing key raises
    [KeyError]. *)
Definition subscript (d : gmap bytes MessageRequest) (key : bytes) : M MessageRequest :=
  match d !! key with
  | Some v => ret v
  | None => raise (KeyError key)
  end.

(** [if key in d: del d[key]]. *)
Definition del_requested_hash_if_present (key : bytes) : M unit :=
  do present <- get (fun st => bool_decide (is_Some (requested_hash st !! key)));
  if (present : bool)
  then modify (fun st => with_requested_hash (delete key (requested_hash st)) st)
  else ret tt.

(** An attribute assignment or in-place mutation of the [MessageRequest]
    object stored under [key]: every reference to the object sees it. *)
Definition mutate_request (key : bytes) (f : MessageRequest -> MessageRequest) : M unit :=
  modify (fun st => with_requested_hash (alter f key (requested_hash st)) st).

Definition append_already_requested (p : peer) (r : MessageRequest) : MessageRequest :=
  mkMessageRequest (peers_connection_list r) (already_requested_peers r ++ [p]) (callLater r).

Definition set_callLater (c : nat) (r : MessageRequest) : MessageRequest :=
  mkMessageRequest (peers_connection_list r) (already_requested_peers r) (Some c).

(** ** The selector's queue

    [queue.PriorityQueue] keeps a binary heap of the tuples; the only
    operation the factory uses, [get_nowait], removes a least tuple or
    raises [queue.Empty].  The queue is modelled by its contents, and
    [get_nowait] by the removal of the least tuple.  Tuples compare by
    score first and then by hash, [bytes] comparing lexicographically. *)

Fixpoint bytes_compare (a b : bytes) : comparison :=
  match a, b with
  | [], [] => Eq
  | [], _ :: _ => Lt
  | _ :: _, [] => Gt
  | x :: a', y :: b' =>
      match N.compare (Byte.to_N x) (Byte.to_N y) with
      | Eq => bytes_compare a' b'
      | c => c
      end
  end.

Definition candidate_leb (x y : candidate) : bool :=
  match Z.compare (fst x) (fst y) with
  | Lt => true
  | Gt => false
  | Eq => match bytes_compare (snd x) (snd y) with Gt => false | _ => true end
  end.

Fixpoint pq_min (q : list candidate) : option candidate :=
  match q with
  | [] => None
  | x :: q' =>
      match pq_min q' with
      | None => Some x
      | Some y => if candidate_leb x y then Some x else Some y
      end
  end.

Fixpoint pq_remove (c : candidate) (q : list candidate) : list candidate :=
  match q with
  | [] => []
  | x :: q' => if decide (x = c) then q' else x :: pq_remove c q'
  end.

Definition get_nowait : M candidate :=
  fun st =>
    match pq_min (bkmr_priorityq st) with
    | None => (Raise QueueEmpty, st)
    | Some c => (Ok c, with_bkmr_priorityq (pq_remove c (bkmr_priorityq st)) st)
    end.

(** ** The methods of [P2PFactory] *)

(** [for peer in self.peer_connections: peer.transport.write(frame)]. *)
Fixpoint write_all (env : Env) (f : frame) (peers : list peer) : M unit :=
  match peers with
  | [] => ret tt
  | p :: rest => transport_write_to env p f ;; write_all env f rest
  end.

Definition get_synced_state (env : Env) : M unit :=
  modify (with_synced_peers []) ;;
  do peers <- get peer_connections;
  write_all env SYNC peers.

(** The [for peer in peers_list] loop of [RFM].  The result tells whether
    the loop left the method by its [return]. *)
Fixpoint RFM_loop (env : Env) (data : MR) (message_request : MessageRequest)
    (peers_list : list peer) : M bool :=
  match peers_list with
  | [] => ret false
  | p :: rest =>
      if bool_decide (p ∈ already_requested_peers message_request)
      then RFM_loop env data message_request rest
      else
        mutate_request (mr_hash data) (append_already_requested p) ;;
        transport_write_to env p (SFM data) ;;
        do call_later_obj <-
          reactor_callLater (message_receipt_timeout env) (CallRFM data);
        mutate_request (mr_hash data) (set_callLater call_later_obj) ;;
        ret true
  end.

Definition RFM (env : Env) (data : MR) : M unit :=
  let msg_hash := mr_hash data in
  do known <- get (fun st => bool_decide (is_Some (hash_msg st !! msg_hash)));
  if (known : bool) then del_requested_hash_if_present msg_hash
  else
    do requested <- get requested_hash;
    do message_request <- subscript requested msg_hash;
    let peers_list := peers_connection_list message_request in
    do returned <- RFM_loop env data message_request peers_list;
    if (returned : bool) then ret tt
    else del_requested_hash_if_present msg_hash.

(** The suite of the [try] statement of [select_best_bkmr]. *)
Definition select_best_bkmr_try (env : Env) (blocknumber : Z) : M unit :=
  do ' (dscore, dhash) <- get_nowait;
  let request :=
    (let data := set_type (set_hash MR_new dhash) "BK" in
     RFM env data ;;
     do call <- reactor_callLater 5 CallSelectBestBkmr;
     modify (with_bkmr_processor call)) in
  if blocknumber <=? height env then
    do oldscore <- lift (get_block_score env blocknumber);
    if dscore >? oldscore
    then modify (with_bkmr_priorityq [])
    else request
  else request.

(** Its handlers: [except queue.Empty] returns, [except Exception] logs. *)
Definition select_best_bkmr_except (e : exn) : M unit :=
  match e with
  | QueueEmpty => ret tt
  | _ =>
      emit (LogError "select_best_bkmr Unexpected Exception") ;;
      emit (LogErrorExn e)
  end.

Definition select_best_bkmr (env : Env) : M unit :=
  do blocknumber <- get bkmr_blocknumber;
  try_except (select_best_bkmr_try env blocknumber) select_best_bkmr_except.

Definition ping_peers (env : Env) : M unit :=
  emit (LogInfo "<<<Transmitting network PING") ;;
  modify (with_last_ping (Some (time_now env))) ;;
  do peers <- get peer_connections;
  write_all env PING peers.

(** The loop of [broadcast]. *)
Fixpoint broadcast_loop (env : Env) (ignore_peers : list peer) (data : MR)
    (peers : list peer) : M unit :=
  match peers with
  | [] => ret tt
  | p :: rest =>
      if bool_decide (p ∈ ignore_peers)
      then broadcast_loop env ignore_peers data rest
      else
        transport_write_to env p (MRframe data) ;;
        broadcast_loop env ignore_peers data rest
  end.

(** [data=None] is [None]; a record that was passed is truthy. *)
Definition broadcast (env : Env) (msg_hash : bytes) (msg_type : string)
    (data : option MR) : M unit :=
  do ignore_peers <- get (fun st =>
    match requested_hash st !! msg_hash with
    | Some r => peers_connection_list r
    | None => []
    end);
  let data :=
    match data with
    | Some d => d
    | None => set_type (set_hash MR_new msg_hash) msg_type
    end in
  do peers <- get peer_connections;
  broadcast_loop env ignore_peers data peers.

(** Modelled from the spec: [register] of the message receipt registry is
    defined outside this file.  It marks the hash as fully known and stores
    the payload and its type. *)
Definition register (msg_hash : bytes) (msg_json msg_type : string) : M unit :=
  emit (Register msg_hash msg_json msg_type) ;;
  modify (fun st => with_hash_msg (<[msg_hash := (msg_json, msg_type)]> (hash_msg st)) st).

Definition register_and_broadcast (env : Env) (msg_type : string)
    (msg_hash : bytes) (msg_json : string) (data : option MR) : M unit :=
  register msg_hash msg_json msg_type ;;
  let data := match data with Some d => d | None => MR_new end in
  let data := set_type (set_hash data msg_hash) msg_type in
  broadcast env msg_hash msg_type (Some data).

(** The reactor is the event loop of the networking library the factory
    runs on.  A delayed call fires once: it leaves the pending calls, and
    then its callback runs. *)
Definition run_callback (env : Env) (cb : callback) : M unit :=
  match cb with
  | CallRFM data => RFM env data
  | CallSelectBestBkmr => select_best_bkmr env
  | CallSetPOS => ret tt
  end.

Definition reactor_fire (env : Env) (id : nat) : M unit :=
  fun st =>
    match list_find (fun dc => dc_id dc = id) (delayed_calls st) with
    | None => (Ok tt, st)
    | Some (_, dc) =>
        run_callback env (dc_callback dc)
          (with_reactor (filter (fun dc' => dc_id dc' ≠ id) (delayed_calls st))
             (next_call st) st)
    end.

Definition is_selector_call (dc : DelayedCall) : bool :=
  match dc_callback dc with
  | CallSelectBestBkmr => true
  | _ => false
  end.

(** The selector's schedule is alive while one of its calls is pending. *)
Definition selector_scheduled (st : State) : bool :=
  existsb is_selector_call (delayed_calls st).

(** ** Auxiliary notions used by the statements *)

(** The first peer of [peers_list] that is not in [already]: the peer at
    which the loop of [RFM] stops. *)
Fixpoint first_unasked (already peers_list : list peer) : option peer :=
  match peers_list with
  | [] => None
  | p :: rest =>
      if bool_decide (p ∈ already) then first_unasked already rest else Some p
  end.

(** The peers of a list in order of first occurrence, leaving out those
    in [seen]. *)
Fixpoint distinct_from (seen l : list peer) : list peer :=
  match l with
  | [] => []
  | p :: rest =>
      if bool_decide (p ∈ seen) then distinct_from seen rest
      else p :: distinct_from (seen ++ [p]) rest
  end.

Definition distinct (l : list peer) : list peer := distinct_from [] l.

(** The peers a loop of writes reaches before a write raises, and the
    exception that stops it, if any. *)
Fixpoint written (env : Env) (peers : list peer) : list peer :=
  match peers with
  | [] => []
  | p :: rest =>
      match transport_write env p with
      | Some _ => []
      | None => p :: written env rest
      end
  end.

Fixpoint write_failure (env : Env) (peers : list peer) : option exn :=
  match peers with
  | [] => None
  | p :: rest =>
      match transport_write env p with
      | Some e => Some e
      | None => write_failure env rest
      end
  end.

Definition outcome (failure : option exn) : result unit :=
  match failure with
  | None => Ok tt
  | Some e => Raise e
  end.

(** The peers [broadcast] leaves out for a hash. *)
Definition ignore_peers_of (st : State) (msg_hash : bytes) : list peer :=
  match requested_hash st !! msg_hash with
  | Some r => peers_connection_list r
  | None => []
  end.

(** The record [broadcast] announces. *)
Definition announce_record (msg_hash : bytes) (msg_type : string)
    (data : option MR) : MR :=
  match data with
  | Some d => d
  | None => set_type (set_hash MR_new msg_hash) msg_type
  end.

(** [n] invocations of [RFM] for the same record, one after the other;
    an invocation that raises leaves the state it reached. *)
Fixpoint RFM_iter (env : Env) (data : MR) (n : nat) (st : State) : State :=
  match n with
  | O => st
  | S n' => RFM_iter env data n' (snd (RFM env data st))
  end.

(** The state in which [RFM] leaves the factory when it has marked [p] as
    asked and the write to [p] raised. *)
Definition RFM_marked (data : MR) (p : peer) (st : State) : State :=
  with_requested_hash
    (alter (append_already_requested p) (mr_hash data) (requested_hash st)) st.

(** The state in which [RFM] leaves the factory when it has asked [p]. *)
Definition RFM_asked (env : Env) (data : MR) (p : peer) (st : State) : State :=
  mkState (hash_msg st)
    (alter (set_callLater (next_call st)) (mr_hash data)
       (alter (append_already_requested p) (mr_hash data) (requested_hash st)))
    (peer_connections st) (synced_peers st) (bkmr_blocknumber st)
    (bkmr_priorityq st) (bkmr_processor st) (last_ping st)
    (delayed_calls st ++
       [mkDelayedCall (next_call st) (message_receipt_timeout env) (CallRFM data)])
    (S (next_call st))
    (trace st ++ [Write p (SFM data)]).

(** The state that differs by the absence of the request state of a hash. *)
Definition RFM_dropped (data : MR) (st : State) : State :=
  with_requested_hash (delete (mr_hash data) (requested_hash st)) st.

(** The record [select_best_bkmr] requests for a candidate's hash. *)
Definition bkmr_record (dhash : bytes) : MR :=
  set_type (set_hash MR_new dhash) "BK".

(** The state after [select_best_bkmr] has re-armed its timer in [st]. *)
Definition rearmed (st : State) : State :=
  with_bkmr_processor (next_call st)
    (with_reactor
       (delayed_calls st ++ [mkDelayedCall (next_call st) 5 CallSelectBestBkmr])
       (S (next_call st)) st).

(** The state after the least candidate [c] has left the queue. *)
Definition popped (c : candidate) (st : State) : State :=
  with_bkmr_priorityq (pq_remove c (bkmr_priorityq st)) st.

(** The state after the two error lines of [select_best_bkmr] are logged. *)
Definition logged (e : exn) (st : State) : State :=
  with_trace
    (trace st ++ [LogError "select_best_bkmr Unexpected Exception"; LogErrorExn e]) st.

(** The state after the handlers of [select_best_bkmr] have dealt with an
    exception: [queue.Empty] leaves no trace, any other is logged. *)
Definition after_exception (e : exn) (st : State) : State :=
  if decide (e = QueueEmpty) then st else logged e st.

(** The state after [ping_peers] has reached the peers [reached]. *)
Definition pinged (env : Env) (reached : list peer) (st : State) : State :=
  with_trace
    (trace st ++ LogInfo "<<<Transmitting network PING" ::
       map (fun p => Write p PING) reached)
    (with_last_ping (Some (time_now env)) st).

(** The announces of a record to a list of peers, as writes. *)
Definition announces (data : MR) (peers : list peer) : list event :=
  map (fun p => Write p (MRframe data)) peers.

(** The record [register_and_broadcast] announces. *)
Definition registered_record (msg_type : string) (msg_hash : bytes)
    (data : option MR) : MR :=
  set_type (set_hash (match data with Some d => d | None => MR_new end) msg_hash)
    msg_type.

(** ** The peer registry and the senders *)

(** What [connect_peers] reads besides the factory: the configured
    addresses ([self.node._peer_addresses]), the remote host of a session
    ([peer_conn.transport.getPeer().host]) and the rendering of the address
    list in its log line. *)
Record Net := mkNet {
  peer_addresses : list string;
  host : peer -> string;
  repr_addresses : list string -> string
}.

(** The inner loop of [connect_peers]: [found] after the loop. *)
Fixpoint connect_peers_found (net : Net) (peer_address : string)
    (conns : list peer) : bool :=
  match conns with
  | [] => false
  | peer_conn :: rest =>
      if decide (peer_address = host net peer_conn) then true
      else connect_peers_found net peer_address rest
  end.

(** The outer loop: the calls [reactor.connectTCP(peer_address, 9000, self)]
    it makes, in order. *)
Fixpoint connect_peers_loop (net : Net) (addresses : list string)
    (conns : list peer) : list (string * Z) :=
  match addresses with
  | [] => []
  | peer_address :: rest =>
      if connect_peers_found net peer_address conns
      then connect_peers_loop net rest conns
      else (peer_address, 9000) :: connect_peers_loop net rest conns
  end.

(** [connect_peers] returns nothing; the value here is the list of the
    connection attempts it asked the reactor for. *)
Definition connect_peers (net : Net) : M (list (string * Z)) :=
  emit (LogInfo ("<<<Reconnecting to peer list: " ++
                 repr_addresses net (peer_addresses net))) ;;
  do conns <- get peer_connections;
  ret (connect_peers_loop net (peer_addresses net) conns).








Section Senders.

(** The renderings of the arguments of the log lines: [%s] of an integer
    and of a [bytes] value, and [bin2hstr]. *)
Context (str_int : Z -> string) (str_bytes : bytes -> string)
        (bin2hstr : bytes -> string).





End Senders.




(** An environment with another scoring collaborator. *)
Definition with_get_block_score (score : Z -> result Z) (env : Env) : Env :=
  mkEnv (transport_write env) (height env) score (message_receipt_timeout env)
    (time_now env).

(** The requests for a record to a list of peers, as writes. *)
Definition requests (data : MR) (peers : list peer) : list event :=
  map (fun p => Write p (SFM data)) peers.

(** The state in which [register] leaves the factory. *)
Definition registered (msg_hash : bytes) (msg_json msg_type : string)
    (st : State) : State :=
  with_hash_msg (<[msg_hash := (msg_json, msg_type)]> (hash_msg st))
    (with_trace (trace st ++ [Register msg_hash msg_json msg_type]) st).

(** The probes of [get_synced_state] to a list of peers, as writes. *)
Definition sync_requests (peers : list peer) : list event :=
  map (fun p => Write p SYNC) peers.

(** The probes of [ping_peers] to a list of peers, as writes. *)
Definition pings (peers : list peer) : list event :=
  map (fun p => Write p PING) peers.

(** The connection attempts for a list of addresses. *)
Definition attempts (addresses : list string) : list (string * Z) :=
  map (fun a => (a, 9000)) addresses.

(** The record with only a hash and a type. *)
Definition minimal_record (msg_hash : bytes) (msg_type : string) : MR :=
  mkMR msg_hash msg_type [] 0 [] [].

(** ** Sample inputs *)

Definition hash_H1 : bytes := ["a"%byte].
Definition hash_H2 : bytes := ["b"%byte].

(** Every transport accepts writes; the chain is at height 10 and its
    accepted score is 50 at every height. *)
Definition env_ok : Env :=
  mkEnv (fun _ => None) 10 (fun _ => Ok 50) 10 0.

(** As [env_ok], but the scoring collaborator raises. *)
Definition env_score_raises : Env :=
  mkEnv (fun _ => None) 10 (fun _ => Raise (OtherException "score")) 10 0.

(** As [env_ok], but the transport of peer 1 raises on a write. *)
Definition env_peer1_fails : Env :=
  mkEnv (fun p => if decide (p = 1%nat) then Some (OtherException "write") else None)
    10 (fun _ => Ok 50) 10 0.

(** The factory after [__init__] and [setPOS] with an empty registry: empty
    tables, no peers, the selector's handle 0 already cancelled and no call
    pending. *)
Definition factory_init : State :=
  mkState ∅ ∅ [] [] 0 [] 0 None [] 1 [].

(** Three peers announced [hash_H1]; none has been asked yet. *)
Definition st_announced : State :=
  with_requested_hash
    {[ hash_H1 := mkMessageRequest [1%nat; 2%nat; 3%nat] [] None ]} factory_init.

(** Every peer that announced [hash_H1] has been asked. *)
Definition st_exhausted : State :=
  with_requested_hash
    {[ hash_H1 := mkMessageRequest [1%nat; 2%nat] [1%nat; 2%nat] (Some 2%nat) ]}
    factory_init.

(** A retry call for [hash_H1] is still pending although the request
    state of the hash is gone and the hash is not fully known. *)
Definition st_stale_timer : State :=
  with_reactor [mkDelayedCall 1 10 (CallRFM (bkmr_record hash_H1))] 2 factory_init.

(** The selector tracks height 0; its queue holds the given candidates. *)
Definition st_queue (q : list candidate) : State :=
  with_bkmr_priorityq q factory_init.

(** As [st_queue], with the selector's call 1 pending on the reactor. *)
Definition st_scheduled (q : list candidate) : State :=
  with_bkmr_processor 1
    (with_reactor [mkDelayedCall 1 5 CallSelectBestBkmr] 2 (st_queue q)).

(** Peers 1, 2 and 3 are connected. *)
Definition st_connected : State :=
  mkState ∅ ∅ [1%nat; 2%nat; 3%nat] [] 0 [] 0 None [] 1 [].

(** Peers 1, 2 and 3 are connected and peer 2 announced [hash_H1]. *)
Definition st_connected_announced : State :=
  with_requested_hash {[ hash_H1 := mkMessageRequest [2%nat] [] None ]} st_connected.


(** Peers 1 and 2 are connected and both announced [hash_H1]. *)
Definition st_all_announced : State :=
  mkState ∅ {[ hash_H1 := mkMessageRequest [1%nat; 2%nat] [] None ]}
    [1%nat; 2%nat] [] 0 [] 0 None [] 1 [].

(** [hash_H1] is fully known and still has a request state. *)
Definition st_known_requested : State :=
  with_hash_msg {[ hash_H1 := ("{}", "TX") ]} st_announced.

(** ** Basic facts *)

Ltac unfold_m :=
  unfold transport_write_to, reactor_callLater, mutate_request, subscript,
    del_requested_hash_if_present, emit in *;
  unfold bind, ret, raise, get, modify, lift, try_except in *;
  cbv beta in *.

Lemma with_trace_id st : with_trace (trace st) st = st.
Proof. by destruct st. Qed.

Lemma with_requested_hash_id st : with_requested_hash (requested_hash st) st = st.
Proof. by destruct st. Qed.

Lemma write_all_spec env f peers st :
  write_all env f peers st =
    (outcome (write_failure env peers),
     with_trace (trace st ++ map (fun p => Write p f) (written env peers)) st).
Proof.
  revert st. induction peers as [|p rest IH]; intros st; simpl.
  - by rewrite app_nil_r, with_trace_id.
  - unfold_m. destruct (transport_write env p) as [e|]; simpl.
    + by rewrite app_nil_r, with_trace_id.
    + rewrite IH. simpl. by rewrite <- app_assoc.
Qed.

Lemma broadcast_loop_write_all env ign data peers st :
  broadcast_loop env ign data peers st =
    write_all env (MRframe data) (filter (fun p => p ∉ ign) peers) st.
Proof.
  revert st. induction peers as [|p rest IH]; intros st; [done|].
  simpl. rewrite filter_cons. case_bool_decide as Hin.
  - rewrite decide_False by tauto. apply IH.
  - rewrite decide_True by done. simpl. unfold bind.
    destruct (transport_write_to env p (MRframe data) st) as [[[]|e] st1]; [apply IH|done].
Qed.

Lemma broadcast_spec env msg_hash msg_type data st :
  broadcast env msg_hash msg_type data st =
    write_all env (MRframe (announce_record msg_hash msg_type data))
      (filter (fun p => p ∉ ignore_peers_of st msg_hash) (peer_connections st)) st.
Proof.
  unfold broadcast. unfold bind at 1, get at 1. unfold bind at 1, get at 1.
  apply broadcast_loop_write_all.
Qed.

(** *** The full-message requester, case by case *)

Lemma del_requested_hash_if_present_spec key st :
  del_requested_hash_if_present key st =
    (Ok tt, with_requested_hash (delete key (requested_hash st)) st).
Proof.
  unfold_m. case_bool_decide as Hin; [done|].
  rewrite delete_id, with_requested_hash_id; [done|].
  by apply eq_None_not_Some.
Qed.

Lemma RFM_loop_spec env data r peers_list st :
  RFM_loop env data r peers_list st =
    match first_unasked (already_requested_peers r) peers_list with
    | None => (Ok false, st)
    | Some p =>
        match transport_write env p with
        | Some e => (Raise e, RFM_marked data p st)
        | None => (Ok true, RFM_asked env data p st)
        end
    end.
Proof.
  induction peers_list as [|p rest IH]; simpl; [done|].
  case_bool_decide; [done|].
  unfold_m. by destruct (transport_write env p).
Qed.

Lemma RFM_spec env data st :
  RFM env data st =
    match hash_msg st !! mr_hash data with
    | Some _ => (Ok tt, RFM_dropped data st)
    | None =>
        match requested_hash st !! mr_hash data with
        | None => (Raise (KeyError (mr_hash data)), st)
        | Some r =>
            match first_unasked (already_requested_peers r)
                    (peers_connection_list r) with
            | None => (Ok tt, RFM_dropped data st)
            | Some p =>
                match transport_write env p with
                | Some e => (Raise e, RFM_marked data p st)
                | None => (Ok tt, RFM_asked env data p st)
                end
            end
        end
    end.
Proof.
  unfold RFM. unfold bind at 1, get at 1.
  destruct (hash_msg st !! mr_hash data) as [m|] eqn:Hk.
  - rewrite bool_decide_true by eauto. apply del_requested_hash_if_present_spec.
  - rewrite bool_decide_false by apply is_Some_None.
    unfold bind at 1, get at 1. unfold bind at 1, subscript.
    destruct (requested_hash st !! mr_hash data) as [r|]; [|done].
    unfold ret at 1. unfold bind. rewrite RFM_loop_spec.
    destruct (first_unasked _ _) as [p|].
    + by destruct (transport_write env p).
    + apply del_requested_hash_if_present_spec.
Qed.

(** *** The selector step, case by case *)

Lemma select_best_bkmr_except_spec e st :
  select_best_bkmr_except e st =
    if decide (e = QueueEmpty) then (Ok tt, st) else (Ok tt, logged e st).
Proof.
  unfold logged. destruct e; simpl; [done| |]; unfold_m; simpl;
    by rewrite <- app_assoc.
Qed.

Lemma request_spec env dhash st :
  (RFM env (bkmr_record dhash) ;;
   do call <- reactor_callLater 5 CallSelectBestBkmr;
   modify (with_bkmr_processor call)) st =
    match RFM env (bkmr_record dhash) st with
    | (Ok _, st1) => (Ok tt, rearmed st1)
    | (Raise e, st1) => (Raise e, st1)
    end.
Proof.
  unfold bind at 1. by destruct (RFM env (bkmr_record dhash) st) as [[[]|e] st1].
Qed.

Lemma select_best_bkmr_try_spec env blocknumber st :
  select_best_bkmr_try env blocknumber st =
    match pq_min (bkmr_priorityq st) with
    | None => (Raise QueueEmpty, st)
    | Some (dscore, dhash) =>
        let st1 := popped (dscore, dhash) st in
        let request :=
          match RFM env (bkmr_record dhash) st1 with
          | (Ok _, st2) => (Ok tt, rearmed st2)
          | (Raise e, st2) => (Raise e, st2)
          end in
        if blocknumber <=? height env then
          match get_block_score env blocknumber with
          | Raise e => (Raise e, st1)
          | Ok oldscore =>
              if dscore >? oldscore
              then (Ok tt, with_bkmr_priorityq [] st)
              else request
          end
        else request
    end.
Proof.
  unfold select_best_bkmr_try. unfold bind at 1, get_nowait.
  destruct (pq_min (bkmr_priorityq st)) as [[dscore dhash]|]; [|done].
  fold (popped (dscore, dhash) st). cbv zeta.
  destruct (blocknumber <=? height env).
  - unfold bind at 1, lift. destruct (get_block_score env blocknumber) as [old|e]; [|done].
    destruct (dscore >? old); [done|]. apply request_spec.
  - apply request_spec.
Qed.

Lemma select_best_bkmr_unfold env st :
  select_best_bkmr env st =
    match select_best_bkmr_try env (bkmr_blocknumber st) st with
    | (Ok a, st') => (Ok a, st')
    | (Raise e, st') => select_best_bkmr_except e st'
    end.
Proof. done. Qed.

(** *** Lists of peers *)

Lemma first_unasked_None already l :
  first_unasked already l = None ↔ ∀ p, p ∈ l → p ∈ already.
Proof.
  induction l as [|q l IH]; simpl.
  - split; [|done]. intros _ p Hp. by apply elem_of_nil in Hp.
  - case_bool_decide as Hq.
    + rewrite IH. split.
      * intros H p Hp. apply elem_of_cons in Hp as [->|Hp]; auto.
      * intros H p Hp. apply H. by right.
    + split; [done|]. intros H. destruct Hq. apply H. by left.
Qed.

Lemma first_unasked_Some already l p :
  first_unasked already l = Some p ↔
  ∃ l1 l2, l = l1 ++ p :: l2 ∧ (∀ q, q ∈ l1 → q ∈ already) ∧ p ∉ already.
Proof.
  induction l as [|q l IH]; simpl.
  - split; [done|]. intros (l1 & l2 & H & _). by destruct l1.
  - case_bool_decide as Hq.
    + rewrite IH. split.
      * intros (l1 & l2 & -> & H1 & H2). exists (q :: l1), l2.
        split_and!; [done| |done].
        intros x Hx. apply elem_of_cons in Hx as [->|Hx]; auto.
      * intros (l1 & l2 & H & H1 & H2). destruct l1 as [|x l1]; simpl in H.
        -- injection H as -> _. done.
        -- injection H as -> ->. exists l1, l2. split_and!; [done| |done].
           intros y Hy. apply H1. by right.
    + split.
      * intros [= ->]. exists [], l. split_and!; [done| |done].
        intros x Hx. by apply elem_of_nil in Hx.
      * intros (l1 & l2 & H & H1 & H2). destruct l1 as [|x l1]; simpl in H.
        -- by injection H as ->.
        -- injection H as -> _. destruct Hq. apply H1. by left.
Qed.

Lemma first_unasked_head already l :
  first_unasked already l = head (distinct_from already l).
Proof.
  induction l as [|q l IH]; simpl; [done|]. by case_bool_decide.
Qed.

Lemma distinct_from_snoc already l p :
  head (distinct_from already l) = Some p →
  distinct_from (already ++ [p]) l = tail (distinct_from already l).
Proof.
  induction l as [|q l IH]; simpl; [done|].
  case_bool_decide as Hq.
  - intros Hp. rewrite bool_decide_true by (apply elem_of_app; by left). auto.
  - simpl. intros [= ->].
    rewrite bool_decide_true by (apply elem_of_app; right; by apply list_elem_of_singleton).
    done.
Qed.

Lemma distinct_from_NoDup seen l :
  NoDup l → (∀ p, p ∈ l → p ∉ seen) → distinct_from seen l = l.
Proof.
  revert seen. induction l as [|q l IH]; intros seen Hnd Hdisj; simpl; [done|].
  apply NoDup_cons in Hnd as [Hq Hnd].
  rewrite bool_decide_false by (apply Hdisj; by left). f_equal.
  apply IH; [done|]. intros p Hp Hin.
  apply elem_of_app in Hin as [Hin|Hin].
  - by apply (Hdisj p); [right|].
  - apply list_elem_of_singleton in Hin as ->. done.
Qed.

Lemma distinct_NoDup l : NoDup l → distinct l = l.
Proof.
  intros Hnd. apply distinct_from_NoDup; [done|].
  intros p _ Hp. by apply elem_of_nil in Hp.
Qed.

(** *** Loops of writes *)


Lemma written_all env l :
  (∀ q, q ∈ l → transport_write env q = None) →
  written env l = l ∧ write_failure env l = None.
Proof.
  intros Hok. induction l as [|q l IH]; simpl; [done|].
  rewrite (Hok q) by (by left).
  destruct IH as [-> ->]; [|done]. intros x Hx. apply Hok. by right.
Qed.

Lemma written_sublist env l p : p ∈ written env l → p ∈ l.
Proof.
  induction l as [|q l IH]; simpl; [done|].
  destruct (transport_write env q); [intros H; by apply elem_of_nil in H|].
  intros H. apply elem_of_cons in H as [->|H]; [by left|right; auto].
Qed.

Lemma write_failure_None env l :
  write_failure env l = None → written env l = l.
Proof.
  induction l as [|q l IH]; simpl; [done|].
  destruct (transport_write env q); [done|]. intros H. by rewrite IH.
Qed.

(** *** The queue *)

Lemma candidate_leb_score x y : candidate_leb x y = true → x.1 ≤ y.1.
Proof.
  unfold candidate_leb. destruct (Z.compare_spec x.1 y.1); [lia|lia|done].
Qed.

Lemma candidate_leb_score_false x y : candidate_leb x y = false → y.1 ≤ x.1.
Proof.
  unfold candidate_leb. destruct (Z.compare_spec x.1 y.1); [lia|done|lia].
Qed.

Lemma pq_min_None q : pq_min q = None ↔ q = [].
Proof.
  destruct q as [|x q]; simpl; [done|].
  split; [|done]. destruct (pq_min q); [by destruct (candidate_leb _ _)|done].
Qed.

Lemma pq_min_least q c :
  pq_min q = Some c → c ∈ q ∧ ∀ x, x ∈ q → c.1 ≤ x.1.
Proof.
  revert c. induction q as [|x q IH]; intros c; simpl; [done|].
  destruct (pq_min q) as [y|] eqn:Hy.
  - destruct (IH y eq_refl) as [Hin Hle].
    destruct (candidate_leb x y) eqn:Hxy; intros [= <-].
    + split; [by left|]. intros z Hz. apply elem_of_cons in Hz as [->|Hz]; [lia|].
      apply candidate_leb_score in Hxy. specialize (Hle z Hz). lia.
    + split; [by right|]. intros z Hz. apply elem_of_cons in Hz as [->|Hz]; [|auto].
      by apply candidate_leb_score_false.
  - intros [= <-]. apply pq_min_None in Hy as ->. split; [by left|].
    intros z Hz. apply list_elem_of_singleton in Hz as ->. lia.
Qed.

(** *** One invocation of [RFM] on the request state of its hash *)

Lemma RFM_marked_lookup data p st r :
  requested_hash st !! mr_hash data = Some r →
  requested_hash (RFM_marked data p st) !! mr_hash data =
    Some (append_already_requested p r).
Proof. intros H. simpl. by rewrite lookup_alter_eq, H. Qed.

Lemma RFM_asked_lookup env data p st r :
  requested_hash st !! mr_hash data = Some r →
  requested_hash (RFM_asked env data p st) !! mr_hash data =
    Some (set_callLater (next_call st) (append_already_requested p r)).
Proof. intros H. simpl. by rewrite !lookup_alter_eq, H. Qed.

Lemma RFM_dropped_lookup data st :
  requested_hash (RFM_dropped data st) !! mr_hash data = None.
Proof. simpl. apply lookup_delete_eq. Qed.

(** [RFM] never touches the table of fully known messages. *)
Lemma RFM_hash_msg env data st : hash_msg (RFM env data st).2 = hash_msg st.
Proof.
  rewrite RFM_spec.
  destruct (hash_msg st !! mr_hash data); [done|].
  destruct (requested_hash st !! mr_hash data) as [r|]; [|done].
  destruct (first_unasked _ _) as [p|]; [|done].
  by destruct (transport_write env p).
Qed.

(** The request state after an invocation that found an un-asked peer. *)
Lemma RFM_step_unasked env data st r p :
  hash_msg st !! mr_hash data = None →
  requested_hash st !! mr_hash data = Some r →
  first_unasked (already_requested_peers r) (peers_connection_list r) = Some p →
  ∃ r', requested_hash (RFM env data st).2 !! mr_hash data = Some r' ∧
        peers_connection_list r' = peers_connection_list r ∧
        already_requested_peers r' = already_requested_peers r ++ [p].
Proof.
  intros Hk Hr Hp. rewrite RFM_spec, Hk, Hr, Hp.
  destruct (transport_write env p); simpl; rewrite ?lookup_alter_eq, Hr; eauto.
Qed.

(** Whatever the outcome, the request state is gone, or unchanged, or has
    one more asked peer, the first un-asked one. *)
Lemma RFM_step_cases env data st r :
  requested_hash st !! mr_hash data = Some r →
  requested_hash (RFM env data st).2 !! mr_hash data = None ∨
  (RFM env data st).2 = st ∨
  ∃ p r', first_unasked (already_requested_peers r) (peers_connection_list r) = Some p ∧
          requested_hash (RFM env data st).2 !! mr_hash data = Some r' ∧
          peers_connection_list r' = peers_connection_list r ∧
          already_requested_peers r' = already_requested_peers r ++ [p].
Proof.
  intros Hr. rewrite RFM_spec, Hr.
  destruct (hash_msg st !! mr_hash data); [left; apply RFM_dropped_lookup|].
  destruct (first_unasked _ _) as [p|] eqn:Hp; [|left; apply RFM_dropped_lookup].
  right; right. exists p.
  destruct (transport_write env p); simpl; rewrite ?lookup_alter_eq, Hr; eauto.
Qed.

Lemma RFM_step_absent env data st :
  requested_hash st !! mr_hash data = None →
  requested_hash (RFM env data st).2 !! mr_hash data = None.
Proof.
  intros Hr. rewrite RFM_spec, Hr.
  destruct (hash_msg st !! mr_hash data); [apply RFM_dropped_lookup|done].
Qed.

Lemma RFM_iter_absent env data n st :
  requested_hash st !! mr_hash data = None →
  requested_hash (RFM_iter env data n st) !! mr_hash data = None.
Proof.
  revert st. induction n as [|n IH]; intros st Hr; simpl; [done|].
  by apply IH, RFM_step_absent.
Qed.

Lemma RFM_step_NoDup env data st r r' :
  requested_hash st !! mr_hash data = Some r →
  NoDup (already_requested_peers r) →
  requested_hash (RFM env data st).2 !! mr_hash data = Some r' →
  NoDup (already_requested_peers r').
Proof.
  intros Hr Hnd Hr'.
  destruct (RFM_step_cases env data st r Hr) as [H|[H|(p & r2 & Hp & H & _ & Ha)]].
  - congruence.
  - rewrite H in Hr'. congruence.
  - rewrite H in Hr'. injection Hr' as <-. rewrite Ha.
    apply first_unasked_Some in Hp as (l1 & l2 & _ & _ & Hnot).
    apply NoDup_app. split_and!; [done| |apply NoDup_singleton].
    intros x Hx Hx'. apply list_elem_of_singleton in Hx' as ->. done.
Qed.

Lemma RFM_iter_NoDup env data n st r r' :
  requested_hash st !! mr_hash data = Some r →
  NoDup (already_requested_peers r) →
  requested_hash (RFM_iter env data n st) !! mr_hash data = Some r' →
  NoDup (already_requested_peers r').
Proof.
  revert st r. induction n as [|n IH]; intros st r Hr Hnd; simpl.
  - intros Hr'. congruence.
  - intros Hr'.
    destruct (requested_hash (RFM env data st).2 !! mr_hash data) as [r1|] eqn:H1.
    + eapply IH; [exact H1| |exact Hr'].
      exact (RFM_step_NoDup env data st r r1 Hr Hnd H1).
    + rewrite RFM_iter_absent in Hr' by done. done.
Qed.

(** After [n] invocations on a hash that stays unknown, the asked peers
    are the asked peers of the start followed by the next [n] distinct
    candidates. *)
Lemma RFM_iter_asked env data n st r :
  hash_msg st !! mr_hash data = None →
  requested_hash st !! mr_hash data = Some r →
  (n ≤ length (distinct_from (already_requested_peers r) (peers_connection_list r)))%nat →
  ∃ r_n,
    hash_msg (RFM_iter env data n st) !! mr_hash data = None ∧
    requested_hash (RFM_iter env data n st) !! mr_hash data = Some r_n ∧
    peers_connection_list r_n = peers_connection_list r ∧
    already_requested_peers r_n =
      already_requested_peers r ++
      take n (distinct_from (already_requested_peers r) (peers_connection_list r)) ∧
    distinct_from (already_requested_peers r_n) (peers_connection_list r) =
      drop n (distinct_from (already_requested_peers r) (peers_connection_list r)).
Proof.
  revert st r. induction n as [|n IH]; intros st r Hk Hr Hn; simpl.
  - exists r. by rewrite app_nil_r.
  - destruct (distinct_from _ _) as [|p D] eqn:HD; simpl in Hn; [lia|].
    assert (first_unasked (already_requested_peers r) (peers_connection_list r) = Some p)
      as Hp by (by rewrite first_unasked_head, HD).
    destruct (RFM_step_unasked env data st r p Hk Hr Hp) as (r1 & Hr1 & Hpeers & Hasked).
    assert (distinct_from (already_requested_peers r1) (peers_connection_list r1) = D)
      as HD1.
    { rewrite Hpeers, Hasked, distinct_from_snoc; by rewrite HD. }
    destruct (IH (RFM env data st).2 r1) as (r_n & Hk' & Hr_n & Hp_n & Ha_n & Hd_n).
    + by rewrite RFM_hash_msg.
    + done.
    + rewrite HD1. lia.
    + exists r_n. rewrite HD1 in Ha_n. rewrite HD1, Hpeers in Hd_n.
      split_and!; [done|done|congruence| |done].
      rewrite Ha_n, Hasked, <- app_assoc. done.
Qed.

(** ** The full-message requester *)

(** C2, as the code has it: when a hash is not fully known and has no
    request state, [RFM] for that hash sends nothing and changes nothing,
    and raises [KeyError] for the hash to its caller. *)
Theorem RFM_without_request_state env data st :
  hash_msg st !! mr_hash data = None →
  requested_hash st !! mr_hash data = None →
  RFM env data st = (Raise (KeyError (mr_hash data)), st).
Proof. intros Hk Hr. by rewrite RFM_spec, Hk, Hr. Qed.

(** On the factory as constructed, [hash_H1] is unknown and unrequested. *)
Lemma RFM_without_request_state_witness :
  hash_msg factory_init !! hash_H1 = None ∧
  requested_hash factory_init !! hash_H1 = None ∧
  RFM env_ok (bkmr_record hash_H1) factory_init =
    (Raise (KeyError hash_H1), factory_init).
Proof.
  split; [reflexivity|]. split; [reflexivity|].
  apply (RFM_without_request_state env_ok (bkmr_record hash_H1) factory_init);
    reflexivity.
Defined.

(** C2 as stated fails: with the request state of [hash_H1] deleted and
    the hash not fully known, [RFM] does not return; it raises [KeyError],
    also when it is entered from a retry call that was still pending. *)
Lemma RFM_stale_timer_raises :
  hash_msg st_stale_timer !! hash_H1 = None ∧
  requested_hash st_stale_timer !! hash_H1 = None ∧
  (RFM env_ok (bkmr_record hash_H1) st_stale_timer).1 = Raise (KeyError hash_H1) ∧
  (RFM env_ok (bkmr_record hash_H1) st_stale_timer).1 ≠ Ok tt ∧
  (reactor_fire env_ok 1 st_stale_timer).1 = Raise (KeyError hash_H1).
Proof. split_and!; [reflexivity|reflexivity|reflexivity|discriminate|reflexivity]. Qed.

(** C7: when a hash is not fully known and every peer of its candidate
    list is already in the asked list, [RFM] returns, the request state of
    the hash no longer exists, nothing was written to a peer and no retry
    call was armed. *)
Theorem RFM_exhausted_drops_request_state env data st r :
  hash_msg st !! mr_hash data = None →
  requested_hash st !! mr_hash data = Some r →
  (∀ p, p ∈ peers_connection_list r → p ∈ already_requested_peers r) →
  (RFM env data st).1 = Ok tt ∧
  requested_hash (RFM env data st).2 !! mr_hash data = None ∧
  trace (RFM env data st).2 = trace st ∧
  delayed_calls (RFM env data st).2 = delayed_calls st.
Proof.
  intros Hk Hr Hall. apply first_unasked_None in Hall.
  rewrite RFM_spec, Hk, Hr, Hall. simpl.
  split_and!; [done|apply lookup_delete_eq|done|done].
Qed.

(** Peers 1 and 2 announced [hash_H1] and both have been asked. *)
Lemma RFM_exhausted_drops_request_state_witness :
  (RFM env_ok (bkmr_record hash_H1) st_exhausted).1 = Ok tt ∧
  requested_hash (RFM env_ok (bkmr_record hash_H1) st_exhausted).2 !! hash_H1 = None ∧
  trace (RFM env_ok (bkmr_record hash_H1) st_exhausted).2 = [] ∧
  delayed_calls (RFM env_ok (bkmr_record hash_H1) st_exhausted).2 = [].
Proof.
  apply (RFM_exhausted_drops_request_state env_ok (bkmr_record hash_H1) st_exhausted
           (mkMessageRequest [1%nat; 2%nat] [1%nat; 2%nat] (Some 2%nat)));
    [reflexivity|reflexivity|].
  intros p Hp. exact Hp.
Defined.

(** C6: on the request state of a hash, (1) an invocation of [RFM] writes
    to at most one peer, and the peer it writes the request to is the first
    peer of the candidate list, in announce order, that is not in the asked
    list, which then gains exactly that peer; (2) over any number of
    invocations the asked list never holds a peer twice; (3) from a fresh
    request state of a hash that is not fully known, invocation [n+1] (the
    [n]-th retry) finds the first [n] distinct candidates asked and asks
    candidate [n+1], its request going out unless that peer's transport
    raises; (4) the distinct candidates are the candidate list itself when
    no peer was announced twice. *)
Theorem RFM_asks_each_candidate_once env data st r :
  requested_hash st !! mr_hash data = Some r →
  (∃ evs, trace (RFM env data st).2 = trace st ++ evs ∧
     (evs = [] ∨
      ∃ p l1 l2 r',
        evs = [Write p (SFM data)] ∧
        peers_connection_list r = l1 ++ p :: l2 ∧
        (∀ q, q ∈ l1 → q ∈ already_requested_peers r) ∧
        (p ∉ already_requested_peers r) ∧
        requested_hash (RFM env data st).2 !! mr_hash data = Some r' ∧
        already_requested_peers r' = already_requested_peers r ++ [p])) ∧
  (NoDup (already_requested_peers r) →
   ∀ n r', requested_hash (RFM_iter env data n st) !! mr_hash data = Some r' →
           NoDup (already_requested_peers r')) ∧
  (hash_msg st !! mr_hash data = None →
   already_requested_peers r = [] →
   ∀ n p, distinct (peers_connection_list r) !! n = Some p →
     (∃ r_n,
        requested_hash (RFM_iter env data n st) !! mr_hash data = Some r_n ∧
        already_requested_peers r_n = take n (distinct (peers_connection_list r))) ∧
     RFM env data (RFM_iter env data n st) =
       match transport_write env p with
       | Some e => (Raise e, RFM_marked data p (RFM_iter env data n st))
       | None => (Ok tt, RFM_asked env data p (RFM_iter env data n st))
       end ∧
     (transport_write env p = None →
      trace (RFM env data (RFM_iter env data n st)).2 =
        trace (RFM_iter env data n st) ++ [Write p (SFM data)])) ∧
  (NoDup (peers_connection_list r) →
   distinct (peers_connection_list r) = peers_connection_list r).
Proof.
  intros Hr. split_and!.
  - rewrite RFM_spec, Hr.
    destruct (hash_msg st !! mr_hash data).
    { exists []. simpl. rewrite app_nil_r. auto. }
    destruct (first_unasked _ _) as [p|] eqn:Hp.
    2:{ exists []. simpl. rewrite app_nil_r. auto. }
    destruct (transport_write env p).
    { exists []. simpl. rewrite app_nil_r. auto. }
    exists [Write p (SFM data)]. split; [done|]. right.
    apply first_unasked_Some in Hp as (l1 & l2 & Hl & Hl1 & Hnot).
    exists p, l1, l2. eexists. split_and!; [done|done|done|done| |].
    + simpl. by rewrite !lookup_alter_eq, Hr.
    + done.
  - intros Hnd n r'. by apply RFM_iter_NoDup with r.
  - intros Hk Hfresh n p Hn.
    destruct (RFM_iter_asked env data n st r Hk Hr) as (r_n & Hk_n & Hr_n & Hp_n & Ha_n & Hd_n).
    { rewrite Hfresh. apply Nat.lt_le_incl. by eapply lookup_lt_Some. }
    rewrite Hfresh in Ha_n, Hd_n. fold (distinct (peers_connection_list r)) in Ha_n, Hd_n.
    assert (first_unasked (already_requested_peers r_n) (peers_connection_list r_n) = Some p)
      as Hp.
    { rewrite Hp_n, first_unasked_head, Hd_n.
      rewrite <- (Nat.add_0_r n) in Hn. rewrite <- lookup_drop in Hn.
      by destruct (drop n (distinct (peers_connection_list r))). }
    assert (RFM env data (RFM_iter env data n st) =
            match transport_write env p with
            | Some e => (Raise e, RFM_marked data p (RFM_iter env data n st))
            | None => (Ok tt, RFM_asked env data p (RFM_iter env data n st))
            end) as Hcall by (by rewrite RFM_spec, Hk_n, Hr_n, Hp).
    split_and!; [by exists r_n|done|].
    intros Hw. rewrite Hcall, Hw. done.
  - apply distinct_NoDup.
Qed.

(** Peers 1, 2 and 3 announced [hash_H1]: the second retry asks peer 3. *)
Lemma RFM_asks_each_candidate_once_witness :
  requested_hash st_announced !! hash_H1 =
    Some (mkMessageRequest [1%nat; 2%nat; 3%nat] [] None) ∧
  trace (RFM env_ok (bkmr_record hash_H1)
           (RFM_iter env_ok (bkmr_record hash_H1) 2 st_announced)).2 =
    trace (RFM_iter env_ok (bkmr_record hash_H1) 2 st_announced) ++
    [Write 3 (SFM (bkmr_record hash_H1))].
Proof.
  split; [reflexivity|].
  pose proof (RFM_asks_each_candidate_once env_ok (bkmr_record hash_H1) st_announced
                (mkMessageRequest [1%nat; 2%nat; 3%nat] [] None) eq_refl)
    as (_ & _ & Hnth & _).
  destruct (Hnth eq_refl eq_refl 2%nat 3%nat eq_refl) as (_ & _ & Hsend).
  exact (Hsend eq_refl).
Defined.

(** ** The consensus-record selector *)

(** What a raising suite of [select_best_bkmr] leaves behind: the least
    candidate is off the queue, and the reactor and the selector's handle
    are as they were. *)
Lemma select_best_bkmr_try_raises env st e st' :
  select_best_bkmr_try env (bkmr_blocknumber st) st = (Raise e, st') →
  e ≠ QueueEmpty →
  (∃ c, pq_min (bkmr_priorityq st) = Some c ∧
        bkmr_priorityq st' = pq_remove c (bkmr_priorityq st)) ∧
  delayed_calls st' = delayed_calls st ∧
  bkmr_processor st' = bkmr_processor st.
Proof.
  rewrite select_best_bkmr_try_spec.
  destruct (pq_min (bkmr_priorityq st)) as [[dscore dhash]|]; [|by intros [= <- <-]].
  cbv zeta. intros Hrun Hne.
  assert (∀ r, (match RFM env (bkmr_record dhash) (popped (dscore, dhash) st) with
                | (Ok _, st2) => (Ok tt, rearmed st2)
                | (Raise e0, st2) => (Raise e0, st2)
                end) = r → r = (Raise e, st') →
               bkmr_priorityq st' = pq_remove (dscore, dhash) (bkmr_priorityq st) ∧
               delayed_calls st' = delayed_calls st ∧
               bkmr_processor st' = bkmr_processor st) as Hrequest.
  { intros ? <-. rewrite RFM_spec.
    destruct (hash_msg _ !! _); [done|].
    destruct (requested_hash _ !! _) as [r|]; [|by intros [= <- <-]].
    destruct (first_unasked _ _) as [p|]; [|done].
    destruct (transport_write env p); [by intros [= <- <-]|done]. }
  split; [exists (dscore, dhash); split; [done|]|].
  - destruct (bkmr_blocknumber st <=? height env); [|by eapply Hrequest].
    destruct (get_block_score env (bkmr_blocknumber st)) as [old|e'].
    + destruct (dscore >? old); [done|by eapply Hrequest].
    + by injection Hrun as <- <-.
  - destruct (bkmr_blocknumber st <=? height env); [|by eapply Hrequest].
    destruct (get_block_score env (bkmr_blocknumber st)) as [old|e'].
    + destruct (dscore >? old); [done|by eapply Hrequest].
    + by injection Hrun as <- <-.
Qed.

(** C1, as the code has it: when the suite of the selector step raises an
    exception other than [queue.Empty] (the scoring collaborator or [RFM]
    raised after the candidate was popped), the step returns normally and
    logs the two error lines.  The popped candidate stays off the queue,
    and the step arms no call: the reactor's pending calls and the
    selector's handle are those of the start, so the step does not keep
    the schedule going. *)
Theorem select_best_bkmr_unexpected_exception env st e st' :
  select_best_bkmr_try env (bkmr_blocknumber st) st = (Raise e, st') →
  e ≠ QueueEmpty →
  select_best_bkmr env st = (Ok tt, logged e st') ∧
  (∃ c, pq_min (bkmr_priorityq st) = Some c ∧
        bkmr_priorityq (logged e st') = pq_remove c (bkmr_priorityq st)) ∧
  delayed_calls (logged e st') = delayed_calls st ∧
  bkmr_processor (logged e st') = bkmr_processor st ∧
  selector_scheduled (logged e st') = selector_scheduled st.
Proof.
  intros Hrun Hne.
  destruct (select_best_bkmr_try_raises env st e st' Hrun Hne) as (Hq & Hcalls & Hproc).
  split_and!; [|done|done|done|].
  - rewrite select_best_bkmr_unfold, Hrun, select_best_bkmr_except_spec.
    by rewrite decide_False.
  - unfold selector_scheduled. simpl. by rewrite Hcalls.
Qed.

(** The scoring collaborator raises on the candidate (40, [hash_H1]). *)
Lemma select_best_bkmr_unexpected_exception_witness :
  OtherException "score" ≠ QueueEmpty ∧
  select_best_bkmr env_score_raises (st_queue [(40, hash_H1)]) =
    (Ok tt, logged (OtherException "score") (st_queue [])).
Proof.
  split; [discriminate|].
  apply (select_best_bkmr_unexpected_exception env_score_raises
           (st_queue [(40, hash_H1)]) (OtherException "score") (st_queue []));
    [reflexivity|discriminate].
Defined.

(** C1 as stated fails: the selector's call 1 fires with two candidates
    queued.  Whether the scoring collaborator raises or [RFM] raises
    ([hash_H1] has no request state), the exception is caught and logged,
    but afterwards no call of the selector is pending although a candidate
    is still queued: no next invocation takes place. *)
Lemma select_best_bkmr_schedule_ends :
  selector_scheduled (st_scheduled [(40, hash_H1); (45, hash_H2)]) = true ∧
  (let out := reactor_fire env_score_raises 1
                (st_scheduled [(40, hash_H1); (45, hash_H2)]) in
   out.1 = Ok tt ∧
   trace out.2 = [LogError "select_best_bkmr Unexpected Exception";
                  LogErrorExn (OtherException "score")] ∧
   bkmr_priorityq out.2 = [(45, hash_H2)] ∧
   delayed_calls out.2 = [] ∧
   selector_scheduled out.2 = false) ∧
  (let out := reactor_fire env_ok 1
                (st_scheduled [(40, hash_H1); (45, hash_H2)]) in
   out.1 = Ok tt ∧
   trace out.2 = [LogError "select_best_bkmr Unexpected Exception";
                  LogErrorExn (KeyError hash_H1)] ∧
   bkmr_priorityq out.2 = [(45, hash_H2)] ∧
   delayed_calls out.2 = [] ∧
   selector_scheduled out.2 = false).
Proof. cbv zeta. split_and!; reflexivity. Qed.

(** C4: when the queue is not empty, the tracked block number is at or
    below the chain's height, and the score of the popped candidate, which
    is least among the queued scores, is strictly greater than the chain's
    accepted score at that height, the step returns with the queue empty
    and everything else as before: nothing was written to a peer and no
    call was armed. *)
Theorem select_best_bkmr_prunes env st dscore dhash oldscore :
  pq_min (bkmr_priorityq st) = Some (dscore, dhash) →
  bkmr_blocknumber st ≤ height env →
  get_block_score env (bkmr_blocknumber st) = Ok oldscore →
  dscore > oldscore →
  bkmr_priorityq st ≠ [] ∧
  (∀ x, x ∈ bkmr_priorityq st → dscore ≤ x.1) ∧
  select_best_bkmr env st = (Ok tt, with_bkmr_priorityq [] st) ∧
  bkmr_priorityq (select_best_bkmr env st).2 = [] ∧
  trace (select_best_bkmr env st).2 = trace st ∧
  delayed_calls (select_best_bkmr env st).2 = delayed_calls st ∧
  bkmr_processor (select_best_bkmr env st).2 = bkmr_processor st ∧
  requested_hash (select_best_bkmr env st).2 = requested_hash st.
Proof.
  intros Hmin Hh Hscore Hgt.
  assert (select_best_bkmr env st = (Ok tt, with_bkmr_priorityq [] st)) as Hrun.
  { rewrite select_best_bkmr_unfold, select_best_bkmr_try_spec, Hmin. cbv zeta.
    rewrite (proj2 (Z.leb_le _ _) Hh), Hscore.
    by rewrite (proj2 (Z.gtb_gt _ _) Hgt). }
  rewrite Hrun. split_and!; try done.
  - intros Hnil. by rewrite Hnil in Hmin.
  - apply (pq_min_least _ _ Hmin).
Qed.

(** Accepted score 50 and candidates 60 and 70: the queue is emptied. *)
Lemma select_best_bkmr_prunes_witness :
  pq_min [(60, hash_H1); (70, hash_H2)] = Some (60, hash_H1) ∧
  select_best_bkmr env_ok (st_queue [(60, hash_H1); (70, hash_H2)]) =
    (Ok tt, st_queue []).
Proof.
  split; [reflexivity|].
  apply (select_best_bkmr_prunes env_ok (st_queue [(60, hash_H1); (70, hash_H2)])
           60 hash_H1 50); [reflexivity|simpl; lia|reflexivity|lia].
Defined.

(** C5, as the code has it: when the queue is not empty and either the
    tracked block number exceeds the chain's height or the popped
    candidate's score is at most the chain's accepted score at the tracked
    height, the step calls [RFM] for the popped candidate's hash, and, when
    that call returns without raising, arms the selector again with the
    fixed delay 5 and keeps the new handle. *)
Theorem select_best_bkmr_requests_and_rearms env st dscore dhash st2 :
  pq_min (bkmr_priorityq st) = Some (dscore, dhash) →
  (height env < bkmr_blocknumber st ∨
   (bkmr_blocknumber st ≤ height env ∧
    ∃ oldscore, get_block_score env (bkmr_blocknumber st) = Ok oldscore ∧
                dscore ≤ oldscore)) →
  RFM env (bkmr_record dhash) (popped (dscore, dhash) st) = (Ok tt, st2) →
  select_best_bkmr env st = (Ok tt, rearmed st2) ∧
  delayed_calls (rearmed st2) =
    delayed_calls st2 ++ [mkDelayedCall (next_call st2) 5 CallSelectBestBkmr] ∧
  bkmr_processor (rearmed st2) = next_call st2 ∧
  selector_scheduled (rearmed st2) = true.
Proof.
  intros Hmin Hcond HRFM. split_and!; [|done|done|].
  - rewrite select_best_bkmr_unfold, select_best_bkmr_try_spec, Hmin. cbv zeta.
    rewrite HRFM. destruct Hcond as [Hlt|(Hle & old & Hscore & Hold)].
    + by rewrite (proj2 (Z.leb_gt _ _) Hlt).
    + rewrite (proj2 (Z.leb_le _ _) Hle), Hscore.
      destruct (Z.gtb_spec dscore old); [lia|done].
  - unfold selector_scheduled. simpl. rewrite existsb_app. simpl.
    apply orb_true_r.
Qed.

(** Accepted score 50 and the candidate (40, [hash_H1]) announced by
    peers 1, 2 and 3: peer 1 is asked and the selector is armed again. *)
Lemma select_best_bkmr_requests_and_rearms_witness :
  pq_min [(40, hash_H1)] = Some (40, hash_H1) ∧
  select_best_bkmr env_ok (with_bkmr_priorityq [(40, hash_H1)] st_announced) =
    (Ok tt,
     rearmed (RFM_asked env_ok (bkmr_record hash_H1) 1%nat st_announced)).
Proof.
  split; [reflexivity|].
  apply (select_best_bkmr_requests_and_rearms env_ok
           (with_bkmr_priorityq [(40, hash_H1)] st_announced) 40 hash_H1
           (RFM_asked env_ok (bkmr_record hash_H1) 1%nat st_announced)).
  - reflexivity.
  - right. split; [simpl; lia|]. exists 50. split; [reflexivity|lia].
  - reflexivity.
Defined.

(** C5 as stated fails: the accepted score is 50 and the queue holds
    (40, [hash_H1]), but [hash_H1] has no request state and is not fully
    known.  The step calls [RFM], which raises [KeyError]; the step logs it
    and returns without arming the selector. *)
Lemma select_best_bkmr_no_rearm_when_RFM_raises :
  pq_min (bkmr_priorityq (st_queue [(40, hash_H1)])) = Some (40, hash_H1) ∧
  bkmr_blocknumber (st_queue [(40, hash_H1)]) ≤ height env_ok ∧
  get_block_score env_ok (bkmr_blocknumber (st_queue [(40, hash_H1)])) = Ok 50 ∧
  (RFM env_ok (bkmr_record hash_H1) (st_queue [])).1 = Raise (KeyError hash_H1) ∧
  (let out := select_best_bkmr env_ok (st_queue [(40, hash_H1)]) in
   out.1 = Ok tt ∧
   delayed_calls out.2 = [] ∧
   selector_scheduled out.2 = false ∧
   bkmr_processor out.2 = bkmr_processor (st_queue [(40, hash_H1)]) ∧
   trace out.2 = [LogError "select_best_bkmr Unexpected Exception";
                  LogErrorExn (KeyError hash_H1)]).
Proof. cbv zeta. split_and!; try reflexivity. simpl. lia. Qed.

(** ** The gossip broadcaster and the peer probes *)

Lemma ping_peers_spec env st :
  ping_peers env st =
    (outcome (write_failure env (peer_connections st)),
     pinged env (written env (peer_connections st)) st).
Proof.
  unfold ping_peers. unfold_m. simpl. rewrite write_all_spec. simpl.
  unfold pinged, with_trace. simpl. by rewrite <- app_assoc.
Qed.

Lemma broadcast_outcome env msg_hash msg_type data st :
  broadcast env msg_hash msg_type data st =
    (outcome (write_failure env
       (filter (fun p => p ∉ ignore_peers_of st msg_hash) (peer_connections st))),
     with_trace
       (trace st ++
        announces (announce_record msg_hash msg_type data)
          (written env
             (filter (fun p => p ∉ ignore_peers_of st msg_hash) (peer_connections st))))
       st).
Proof. by rewrite broadcast_spec, write_all_spec. Qed.




(** C8, as the code has it: the events [broadcast] adds are announces of
    its record to connected peers, none of them to a peer it leaves out.  With a request
    state for the hash, no peer of its candidate list is written to, and
    when the call returns every connected peer outside that list has been
    written the announce; without a request state, when the call returns
    every connected peer has been written the announce.  The call returns
    when no transport raises. *)
Theorem broadcast_recipients env msg_hash msg_type data st :
  ∃ sent,
    trace (broadcast env msg_hash msg_type data st).2 =
      trace st ++ announces (announce_record msg_hash msg_type data) sent ∧
    (∀ p, p ∈ sent → p ∈ peer_connections st) ∧
    match requested_hash st !! msg_hash with
    | Some r =>
        (∀ p, p ∈ peers_connection_list r → p ∉ sent) ∧
        ((broadcast env msg_hash msg_type data st).1 = Ok tt →
         ∀ p, p ∈ peer_connections st → p ∉ peers_connection_list r → p ∈ sent)
    | None =>
        (broadcast env msg_hash msg_type data st).1 = Ok tt →
        ∀ p, p ∈ peer_connections st → p ∈ sent
    end ∧
    ((∀ p, p ∈ peer_connections st → transport_write env p = None) →
     (broadcast env msg_hash msg_type data st).1 = Ok tt).
Proof.
  rewrite broadcast_outcome. simpl.
  set (targets := filter (fun p => p ∉ ignore_peers_of st msg_hash) (peer_connections st)).
  exists (written env targets).
  assert (∀ p, p ∈ written env targets →
               p ∈ peer_connections st ∧ p ∉ ignore_peers_of st msg_hash) as Hsent.
  { intros p Hp. apply written_sublist in Hp.
    apply list_elem_of_filter in Hp as [? ?]. done. }
  assert (outcome (write_failure env targets) = Ok tt →
          ∀ p, p ∈ peer_connections st → p ∉ ignore_peers_of st msg_hash →
               p ∈ written env targets) as Hall.
  { intros Hok p Hp Hnot.
    destruct (write_failure env targets) eqn:Hf; [done|].
    rewrite (write_failure_None _ _ Hf). by apply list_elem_of_filter. }
  split_and!; [done|intros p Hp; by apply Hsent| |].
  - unfold ignore_peers_of in Hsent, Hall.
    destruct (requested_hash st !! msg_hash) as [r|].
    + split; [|done]. intros p Hp Hin. by apply Hsent in Hin as [_ ?].
    + intros Hok p Hp. apply Hall; [done|done|]. intros Hin. by apply elem_of_nil in Hin.
  - intros Hok. destruct (written_all env targets) as [_ ->]; [|done].
    intros q Hq. apply Hok. by apply list_elem_of_filter in Hq as [_ ?].
Qed.

(** C10: whatever its outcome, [broadcast] leaves the table of fully
    known messages, the table of request states, the connection list and
    every other field of the factory and of the reactor as they were; it
    only adds writes of its announce to the calls made. *)
Theorem broadcast_frame env msg_hash msg_type data st :
  hash_msg (broadcast env msg_hash msg_type data st).2 = hash_msg st ∧
  requested_hash (broadcast env msg_hash msg_type data st).2 = requested_hash st ∧
  peer_connections (broadcast env msg_hash msg_type data st).2 = peer_connections st ∧
  synced_peers (broadcast env msg_hash msg_type data st).2 = synced_peers st ∧
  bkmr_blocknumber (broadcast env msg_hash msg_type data st).2 = bkmr_blocknumber st ∧
  bkmr_priorityq (broadcast env msg_hash msg_type data st).2 = bkmr_priorityq st ∧
  bkmr_processor (broadcast env msg_hash msg_type data st).2 = bkmr_processor st ∧
  last_ping (broadcast env msg_hash msg_type data st).2 = last_ping st ∧
  delayed_calls (broadcast env msg_hash msg_type data st).2 = delayed_calls st ∧
  next_call (broadcast env msg_hash msg_type data st).2 = next_call st ∧
  ∃ sent,
    trace (broadcast env msg_hash msg_type data st).2 =
      trace st ++ announces (announce_record msg_hash msg_type data) sent.
Proof. rewrite broadcast_outcome. simpl. split_and!; eauto. Qed.

(** C9: [register_and_broadcast] is [register] followed by [broadcast] in
    the state [register] left, in which the hash is fully known with the
    payload and type given.  Among the calls it makes, the call of
    [register] comes first and every write of the announce to a peer comes
    after it. *)
Theorem register_before_announce env msg_type msg_hash msg_json data st :
  ∃ st1 sent,
    register msg_hash msg_json msg_type st = (Ok tt, st1) ∧
    hash_msg st1 !! msg_hash = Some (msg_json, msg_type) ∧
    register_and_broadcast env msg_type msg_hash msg_json data st =
      broadcast env msg_hash msg_type
        (Some (registered_record msg_type msg_hash data)) st1 ∧
    trace (register_and_broadcast env msg_type msg_hash msg_json data st).2 =
      trace st ++ Register msg_hash msg_json msg_type ::
        announces (registered_record msg_type msg_hash data) sent ∧
    hash_msg (register_and_broadcast env msg_type msg_hash msg_json data st).2
      !! msg_hash = Some (msg_json, msg_type) ∧
    ∀ before p f after,
      trace (register_and_broadcast env msg_type msg_hash msg_json data st).2 =
        trace st ++ before ++ Write p f :: after →
      Register msg_hash msg_json msg_type ∈ before.
Proof.
  set (st1 := with_hash_msg (<[msg_hash := (msg_json, msg_type)]> (hash_msg st))
                (with_trace (trace st ++ [Register msg_hash msg_json msg_type]) st)).
  assert (register msg_hash msg_json msg_type st = (Ok tt, st1)) as Hreg by done.
  assert (register_and_broadcast env msg_type msg_hash msg_json data st =
          broadcast env msg_hash msg_type
            (Some (registered_record msg_type msg_hash data)) st1) as Hrun.
  { unfold register_and_broadcast. unfold bind at 1. by rewrite Hreg. }
  assert (∃ sent,
            trace (register_and_broadcast env msg_type msg_hash msg_json data st).2 =
              trace st ++ Register msg_hash msg_json msg_type ::
                announces (registered_record msg_type msg_hash data) sent)
    as [sent Htrace].
  { rewrite Hrun, broadcast_outcome. simpl. eexists. by rewrite <- app_assoc. }
  exists st1, sent. split_and!; [done| |done|done| |].
  - simpl. apply lookup_insert_eq.
  - rewrite Hrun, broadcast_outcome. simpl. apply lookup_insert_eq.
  - intros before p f after Hsplit. rewrite Htrace in Hsplit.
    apply app_inv_head in Hsplit.
    destruct before as [|ev before]; simpl in Hsplit; [done|].
    injection Hsplit as <- _. by left.
Qed.

(** Peer 2 announced [hash_H1]: the announce goes to peers 1 and 3 only. *)
Lemma broadcast_recipients_witness :
  ∃ sent,
    trace (broadcast env_ok hash_H1 "TX" None st_connected_announced).2 =
      trace st_connected_announced ++
      announces (announce_record hash_H1 "TX" None) sent ∧
    (2%nat ∉ sent) ∧ 1%nat ∈ sent ∧ 3%nat ∈ sent.
Proof.
  destruct (broadcast_recipients env_ok hash_H1 "TX" None st_connected_announced)
    as (sent & Htrace & _ & Hreq & Hret).
  assert (requested_hash st_connected_announced !! hash_H1 =
          Some (mkMessageRequest [2%nat] [] None)) as Hl by reflexivity.
  rewrite Hl in Hreq. destruct Hreq as [Hout Hin].
  assert ((broadcast env_ok hash_H1 "TX" None st_connected_announced).1 = Ok tt)
    as Hok by (apply Hret; intros p _; reflexivity).
  exists sent. split; [exact Htrace|]. split; [|split].
  - apply Hout. simpl. left.
  - apply (Hin Hok); [simpl; left|].
    intros H. apply list_elem_of_singleton in H. discriminate.
  - apply (Hin Hok); [simpl; right; right; left|].
    intros H. apply list_elem_of_singleton in H. discriminate.
Defined.

(** C8 as stated fails: peers 1, 2 and 3 are connected and the transport
    of peer 1 raises.  With no request state for [hash_H1], and also with
    one that lists peer 2 only, the call raises and peer 3, connected and
    outside the candidate list, is not written the announce. *)
Lemma broadcast_delivery_stops_at_raising_write :
  3%nat ∈ peer_connections st_connected ∧
  requested_hash st_connected !! hash_H1 = None ∧
  (let out := broadcast env_peer1_fails hash_H1 "TX" None st_connected in
   out.1 = Raise (OtherException "write") ∧
   trace out.2 = trace st_connected ∧
   Write 3 (MRframe (announce_record hash_H1 "TX" None)) ∉ trace out.2) ∧
  3%nat ∈ peer_connections st_connected_announced ∧
  requested_hash st_connected_announced !! hash_H1 =
    Some (mkMessageRequest [2%nat] [] None) ∧
  (3%nat ∉ [2%nat]) ∧
  (let out := broadcast env_peer1_fails hash_H1 "TX" None st_connected_announced in
   out.1 = Raise (OtherException "write") ∧
   trace out.2 = trace st_connected_announced ∧
   Write 3 (MRframe (announce_record hash_H1 "TX" None)) ∉ trace out.2).
Proof.
  cbv zeta. split_and!; try reflexivity.
  - right. right. left.
  - intros H. by apply elem_of_nil in H.
  - right. right. left.
  - intros H. apply list_elem_of_singleton in H. discriminate.
  - intros H. by apply elem_of_nil in H.
Qed.

(** A transaction announced to three peers: the registration precedes the
    first write. *)
Lemma register_before_announce_witness :
  trace (register_and_broadcast env_ok "TX" hash_H1 "{}" None st_connected).2 =
    trace st_connected ++ [Register hash_H1 "{}" "TX"] ++
      Write 1 (MRframe (registered_record "TX" hash_H1 None)) ::
      announces (registered_record "TX" hash_H1 None) [2%nat; 3%nat] ∧
  Register hash_H1 "{}" "TX" ∈ [Register hash_H1 "{}" "TX"].
Proof.
  split; [reflexivity|].
  destruct (register_before_announce env_ok "TX" hash_H1 "{}" None st_connected)
    as (st1 & sent & _ & _ & _ & _ & _ & Horder).
  apply (Horder [Register hash_H1 "{}" "TX"] 1%nat
           (MRframe (registered_record "TX" hash_H1 None))
           (announces (registered_record "TX" hash_H1 None) [2%nat; 3%nat])).
  reflexivity.
Defined.

(** ** Further properties of the full-message requester *)

Lemma RFM_dropped_idem data st :
  RFM_dropped data (RFM_dropped data st) = RFM_dropped data st.
Proof. unfold RFM_dropped, with_requested_hash. simpl. by rewrite delete_delete_eq. Qed.

Lemma RFM_iter_S_r env data n st :
  RFM_iter env data (S n) st = (RFM env data (RFM_iter env data n st)).2.
Proof.
  revert st. induction n as [|n IH]; intros st; [done|].
  change (RFM_iter env data (S (S n)) st)
    with (RFM_iter env data (S n) (RFM env data st).2).
  by rewrite IH.
Qed.

Lemma RFM_iter_stuck env data n st :
  hash_msg st !! mr_hash data = None →
  requested_hash st !! mr_hash data = None →
  RFM_iter env data n st = st.
Proof.
  intros Hk Hr. induction n as [|n IH]; [done|].
  simpl. by rewrite RFM_spec, Hk, Hr.
Qed.

Lemma RFM_iter_invariant (P : MessageRequest → Prop) env data :
  (∀ st r r',
     requested_hash st !! mr_hash data = Some r → P r →
     requested_hash (RFM env data st).2 !! mr_hash data = Some r' → P r') →
  ∀ n st r r',
    requested_hash st !! mr_hash data = Some r → P r →
    requested_hash (RFM_iter env data n st) !! mr_hash data = Some r' → P r'.
Proof.
  intros Hstep. induction n as [|n IH]; intros st r r' Hr HP; simpl.
  - intros Hr'. congruence.
  - intros Hr'.
    destruct (requested_hash (RFM env data st).2 !! mr_hash data) as [r1|] eqn:H1.
    + exact (IH _ r1 r' H1 (Hstep st r r1 Hr HP H1) Hr').
    + rewrite RFM_iter_absent in Hr' by done. done.
Qed.

Lemma RFM_iter_trace env data n st r :
  hash_msg st !! mr_hash data = None →
  requested_hash st !! mr_hash data = Some r →
  (∀ p, p ∈ peers_connection_list r → transport_write env p = None) →
  (n ≤ length (distinct_from (already_requested_peers r) (peers_connection_list r)))%nat →
  trace (RFM_iter env data n st) =
    trace st ++
    requests data
      (take n (distinct_from (already_requested_peers r) (peers_connection_list r))).
Proof.
  revert st r. induction n as [|n IH]; intros st r Hk Hr Hok Hn; simpl.
  - by rewrite app_nil_r.
  - destruct (distinct_from _ _) as [|p D] eqn:HD; simpl in Hn; [lia|].
    assert (first_unasked (already_requested_peers r) (peers_connection_list r) = Some p)
      as Hp by (by rewrite first_unasked_head, HD).
    assert (transport_write env p = None) as Hw.
    { apply Hok. apply first_unasked_Some in Hp as (l1 & l2 & -> & _).
      apply elem_of_app. right. by left. }
    assert (RFM env data st = (Ok tt, RFM_asked env data p st)) as Hrun
      by (by rewrite RFM_spec, Hk, Hr, Hp, Hw).
    rewrite Hrun. simpl snd.
    rewrite (IH (RFM_asked env data p st)
               (set_callLater (next_call st) (append_already_requested p r))).
    + simpl. rewrite distinct_from_snoc by (by rewrite HD). rewrite HD. simpl.
      by rewrite <- app_assoc.
    + done.
    + by apply RFM_asked_lookup.
    + done.
    + simpl. rewrite distinct_from_snoc by (by rewrite HD). rewrite HD. simpl. lia.
Qed.

(** X1: for a hash that is fully known, [RFM] returns, removes the
    request state of the hash if there is one, writes to no peer and arms
    no call; invoking it again changes nothing. *)
Theorem RFM_fully_known_cleans_up env data st m :
  hash_msg st !! mr_hash data = Some m →
  RFM env data st = (Ok tt, RFM_dropped data st) ∧
  requested_hash (RFM env data st).2 !! mr_hash data = None ∧
  trace (RFM env data st).2 = trace st ∧
  delayed_calls (RFM env data st).2 = delayed_calls st ∧
  RFM env data (RFM env data st).2 = (Ok tt, (RFM env data st).2).
Proof.
  intros Hk.
  assert (RFM env data st = (Ok tt, RFM_dropped data st)) as Hrun
    by (by rewrite RFM_spec, Hk).
  rewrite Hrun. split_and!; [done|apply RFM_dropped_lookup|done|done|].
  rewrite RFM_spec. simpl. rewrite Hk. fold (RFM_dropped data st).
  by rewrite RFM_dropped_idem.
Qed.

(** [hash_H1] is fully known and three peers are still listed for it. *)
Lemma RFM_fully_known_cleans_up_witness :
  hash_msg st_known_requested !! hash_H1 = Some ("{}", "TX") ∧
  requested_hash (RFM env_ok (bkmr_record hash_H1) st_known_requested).2 !! hash_H1
    = None.
Proof.
  split; [reflexivity|].
  apply (RFM_fully_known_cleans_up env_ok (bkmr_record hash_H1) st_known_requested
           ("{}", "TX")).
  reflexivity.
Defined.

(** X2: whatever its outcome, [RFM] changes no request state but the one
    of its own hash, and leaves the fully known messages, the connection
    list, the synced peers, the selector's fields and the last ping as they
    were. *)
Theorem RFM_touches_only_its_request_state env data st :
  hash_msg (RFM env data st).2 = hash_msg st ∧
  peer_connections (RFM env data st).2 = peer_connections st ∧
  synced_peers (RFM env data st).2 = synced_peers st ∧
  bkmr_blocknumber (RFM env data st).2 = bkmr_blocknumber st ∧
  bkmr_priorityq (RFM env data st).2 = bkmr_priorityq st ∧
  bkmr_processor (RFM env data st).2 = bkmr_processor st ∧
  last_ping (RFM env data st).2 = last_ping st ∧
  ∀ other, other ≠ mr_hash data →
    requested_hash (RFM env data st).2 !! other = requested_hash st !! other.
Proof.
  rewrite RFM_spec.
  destruct (hash_msg st !! mr_hash data).
  { simpl. split_and!; try done. intros other Hne. by apply lookup_delete_ne. }
  destruct (requested_hash st !! mr_hash data) as [r|]; [|done].
  destruct (first_unasked _ _) as [p|].
  2:{ simpl. split_and!; try done. intros other Hne. by apply lookup_delete_ne. }
  destruct (transport_write env p); simpl; split_and!; try done;
    intros other Hne; by rewrite !lookup_alter_ne.
Qed.

(** X3: an invocation of [RFM] either writes nothing and arms nothing, or
    returns having written one request and armed exactly one call: a
    re-invocation of [RFM] for the same record after the configured receipt
    timeout, whose handle is recorded in the request state.  Calls that were
    pending stay pending: a previous retry call is not cancelled. *)
Theorem RFM_arms_one_retry_per_request env data st :
  (trace (RFM env data st).2 = trace st ∧
   delayed_calls (RFM env data st).2 = delayed_calls st ∧
   next_call (RFM env data st).2 = next_call st) ∨
  (∃ p r',
     (RFM env data st).1 = Ok tt ∧
     trace (RFM env data st).2 = trace st ++ [Write p (SFM data)] ∧
     delayed_calls (RFM env data st).2 =
       delayed_calls st ++
       [mkDelayedCall (next_call st) (message_receipt_timeout env) (CallRFM data)] ∧
     next_call (RFM env data st).2 = S (next_call st) ∧
     requested_hash (RFM env data st).2 !! mr_hash data = Some r' ∧
     callLater r' = Some (next_call st) ∧
     p ∈ already_requested_peers r').
Proof.
  rewrite RFM_spec.
  destruct (hash_msg st !! mr_hash data); [by left|].
  destruct (requested_hash st !! mr_hash data) as [r|] eqn:Hr; [|by left].
  destruct (first_unasked _ _) as [p|]; [|by left].
  destruct (transport_write env p); [by left|].
  right. exists p. eexists. split_and!; [done|done|done|done| | |].
  - simpl. by rewrite !lookup_alter_eq, Hr.
  - done.
  - simpl. apply elem_of_app. right. by left.
Qed.

(** X4: when the transport of the first un-asked candidate raises, [RFM]
    raises that exception to its caller after it has marked the peer as
    asked: the request state keeps every other field, nothing is recorded
    as written and no retry call is armed. *)
Theorem RFM_write_failure_marks_peer env data st r l1 p l2 e :
  hash_msg st !! mr_hash data = None →
  requested_hash st !! mr_hash data = Some r →
  peers_connection_list r = l1 ++ p :: l2 →
  (∀ q, q ∈ l1 → q ∈ already_requested_peers r) →
  p ∉ already_requested_peers r →
  transport_write env p = Some e →
  (RFM env data st).1 = Raise e ∧
  requested_hash (RFM env data st).2 !! mr_hash data =
    Some (mkMessageRequest (peers_connection_list r)
            (already_requested_peers r ++ [p]) (callLater r)) ∧
  trace (RFM env data st).2 = trace st ∧
  delayed_calls (RFM env data st).2 = delayed_calls st.
Proof.
  intros Hk Hr Hl Hl1 Hnot Hw.
  assert (first_unasked (already_requested_peers r) (peers_connection_list r) = Some p)
    as Hp by (apply first_unasked_Some; eauto).
  rewrite RFM_spec, Hk, Hr, Hp, Hw. split_and!; [done| |done|done].
  simpl. by rewrite lookup_alter_eq, Hr.
Qed.

(** Peer 1 announced [hash_H1] first and its transport raises. *)
Lemma RFM_write_failure_marks_peer_witness :
  transport_write env_peer1_fails 1%nat = Some (OtherException "write") ∧
  (RFM env_peer1_fails (bkmr_record hash_H1) st_announced).1 =
    Raise (OtherException "write") ∧
  requested_hash (RFM env_peer1_fails (bkmr_record hash_H1) st_announced).2 !! hash_H1 =
    Some (mkMessageRequest [1%nat; 2%nat; 3%nat] [1%nat] None).
Proof.
  split; [reflexivity|].
  destruct (RFM_write_failure_marks_peer env_peer1_fails (bkmr_record hash_H1)
              st_announced (mkMessageRequest [1%nat; 2%nat; 3%nat] [] None)
              [] 1%nat [2%nat; 3%nat] (OtherException "write")) as (H1 & H2 & _).
  - reflexivity.
  - reflexivity.
  - reflexivity.
  - intros q Hq. by apply elem_of_nil in Hq.
  - intros Hq. by apply elem_of_nil in Hq.
  - reflexivity.
  - split; [exact H1|exact H2].
Defined.

(** X5: over any number of invocations of [RFM] the candidate list of the
    request state is never modified, and every peer in the asked list is a
    candidate, provided that held at the start. *)
Theorem RFM_asked_are_candidates env data st r :
  requested_hash st !! mr_hash data = Some r →
  (∀ p, p ∈ already_requested_peers r → p ∈ peers_connection_list r) →
  ∀ n r',
    requested_hash (RFM_iter env data n st) !! mr_hash data = Some r' →
    peers_connection_list r' = peers_connection_list r ∧
    ∀ p, p ∈ already_requested_peers r' → p ∈ peers_connection_list r.
Proof.
  intros Hr Hsub n r'.
  apply (RFM_iter_invariant
           (fun r' => peers_connection_list r' = peers_connection_list r ∧
                      ∀ p, p ∈ already_requested_peers r' → p ∈ peers_connection_list r)
           env data) with (r := r); [|done|done].
  clear. intros st r1 r2 Hr1 [Hpeers Hsub] Hr2.
  destruct (RFM_step_cases env data st r1 Hr1) as [H|[H|(p & r3 & Hp & H & Hp3 & Ha3)]].
  - congruence.
  - rewrite H in Hr2. by replace r2 with r1 by congruence.
  - rewrite H in Hr2. injection Hr2 as <-. split; [congruence|].
    intros q Hq. rewrite Ha3 in Hq. apply elem_of_app in Hq as [Hq|Hq]; [auto|].
    apply list_elem_of_singleton in Hq as ->.
    apply first_unasked_Some in Hp as (l1 & l2 & Hl & _).
    rewrite <- Hpeers, Hl. apply elem_of_app. right. by left.
Qed.

(** Two invocations on the three announcers of [hash_H1]. *)
Lemma RFM_asked_are_candidates_witness :
  requested_hash (RFM_iter env_ok (bkmr_record hash_H1) 2 st_announced) !! hash_H1 =
    Some (mkMessageRequest [1%nat; 2%nat; 3%nat] [1%nat; 2%nat] (Some 2%nat)) ∧
  ∀ p, p ∈ [1%nat; 2%nat] → p ∈ [1%nat; 2%nat; 3%nat].
Proof.
  split; [reflexivity|].
  apply (RFM_asked_are_candidates env_ok (bkmr_record hash_H1) st_announced
           (mkMessageRequest [1%nat; 2%nat; 3%nat] [] None) eq_refl
           (fun p Hp => False_ind _ (proj1 (elem_of_nil p) Hp)) 2%nat
           (mkMessageRequest [1%nat; 2%nat; 3%nat] [1%nat; 2%nat] (Some 2%nat))).
  reflexivity.
Defined.

(** X6: the whole retrieval of a hash that stays unknown, when no
    candidate's transport raises.  From a fresh request state, as many
    invocations as there are distinct candidates write one request to each
    of them, in announce order, and mark them all asked; the next invocation
    removes the request state and writes nothing; any number of further
    invocations leaves the same calls made. *)
Theorem RFM_retrieval_lifecycle env data st r :
  hash_msg st !! mr_hash data = None →
  requested_hash st !! mr_hash data = Some r →
  already_requested_peers r = [] →
  (∀ p, p ∈ peers_connection_list r → transport_write env p = None) →
  trace (RFM_iter env data (length (distinct (peers_connection_list r))) st) =
    trace st ++ requests data (distinct (peers_connection_list r)) ∧
  (∃ r_n,
     requested_hash (RFM_iter env data (length (distinct (peers_connection_list r))) st)
       !! mr_hash data = Some r_n ∧
     already_requested_peers r_n = distinct (peers_connection_list r)) ∧
  requested_hash (RFM_iter env data (S (length (distinct (peers_connection_list r)))) st)
    !! mr_hash data = None ∧
  ∀ k, (length (distinct (peers_connection_list r)) < k)%nat →
    trace (RFM_iter env data k st) =
      trace st ++ requests data (distinct (peers_connection_list r)).
Proof.
  intros Hk Hr Hfresh Hok.
  set (D := distinct (peers_connection_list r)).
  assert (distinct_from (already_requested_peers r) (peers_connection_list r) = D)
    as HD by (by rewrite Hfresh).
  assert (trace (RFM_iter env data (length D) st) = trace st ++ requests data D)
    as Htrace.
  { rewrite (RFM_iter_trace env data (length D) st r Hk Hr Hok) by (rewrite HD; lia).
    by rewrite HD, firstn_all. }
  destruct (RFM_iter_asked env data (length D) st r Hk Hr) as
    (r_n & Hk_n & Hr_n & Hp_n & Ha_n & Hd_n); [rewrite HD; lia|].
  rewrite HD, Hfresh, firstn_all in Ha_n. simpl in Ha_n.
  rewrite HD, drop_all in Hd_n.
  assert (RFM env data (RFM_iter env data (length D) st) =
          (Ok tt, RFM_dropped data (RFM_iter env data (length D) st))) as Hlast.
  { rewrite RFM_spec, Hk_n, Hr_n, Hp_n, first_unasked_head, Hd_n. done. }
  assert (∀ k, (length D < k)%nat →
               RFM_iter env data k st =
               RFM_dropped data (RFM_iter env data (length D) st)) as Hafter.
  { intros k Hlt. replace k with (S (k - 1)) by lia.
    assert (length D ≤ k - 1)%nat as Hle by lia. clear Hlt.
    induction (k - 1)%nat as [|j IH].
    - replace (length D) with 0%nat in * by lia.
      by rewrite RFM_iter_S_r, Hlast.
    - destruct (decide (length D = S j)) as [Heq|Hne].
      + by rewrite RFM_iter_S_r, <- Heq, Hlast.
      + rewrite RFM_iter_S_r, IH by lia.
        rewrite RFM_spec. simpl. rewrite Hk_n, lookup_delete_eq. done. }
  split_and!; [done|by exists r_n| |].
  - rewrite Hafter by lia. apply RFM_dropped_lookup.
  - intros k Hlt. by rewrite Hafter.
Qed.

(** The three announcers of [hash_H1] are asked in turn; the fourth
    invocation removes the request state. *)
Lemma RFM_retrieval_lifecycle_witness :
  trace (RFM_iter env_ok (bkmr_record hash_H1) 3 st_announced) =
    requests (bkmr_record hash_H1) [1%nat; 2%nat; 3%nat] ∧
  requested_hash (RFM_iter env_ok (bkmr_record hash_H1) 4 st_announced) !! hash_H1
    = None.
Proof.
  destruct (RFM_retrieval_lifecycle env_ok (bkmr_record hash_H1) st_announced
              (mkMessageRequest [1%nat; 2%nat; 3%nat] [] None))
    as (Htrace & _ & Hgone & _).
  - reflexivity.
  - reflexivity.
  - reflexivity.
  - intros p _. reflexivity.
  - split; [exact Htrace|exact Hgone].
Defined.

(** ** Further properties of the selector *)

Lemma RFM_result_cases env data st :
  (∃ e, RFM env data st = (Raise e, st)) ∨
  (∃ e p, RFM env data st = (Raise e, RFM_marked data p st)) ∨
  RFM env data st = (Ok tt, RFM_dropped data st) ∨
  (∃ p, RFM env data st = (Ok tt, RFM_asked env data p st)).
Proof.
  rewrite RFM_spec.
  destruct (hash_msg st !! mr_hash data); [by right; right; left|].
  destruct (requested_hash st !! mr_hash data) as [r|]; [|left; eauto].
  destruct (first_unasked _ _) as [p|]; [|by right; right; left].
  destruct (transport_write env p) as [e|].
  - right; left. eauto.
  - right; right; right. eauto.
Qed.

Lemma select_best_bkmr_except_after e st :
  select_best_bkmr_except e st = (Ok tt, after_exception e st).
Proof.
  rewrite select_best_bkmr_except_spec. unfold after_exception. by case_decide.
Qed.

(** Every way a selector step can end. *)
Lemma select_best_bkmr_cases env st :
  (bkmr_priorityq st = [] ∧ select_best_bkmr env st = (Ok tt, st)) ∨
  ∃ c, pq_min (bkmr_priorityq st) = Some c ∧
    ((∃ oldscore,
        bkmr_blocknumber st ≤ height env ∧
        get_block_score env (bkmr_blocknumber st) = Ok oldscore ∧
        c.1 > oldscore ∧
        select_best_bkmr env st = (Ok tt, with_bkmr_priorityq [] st)) ∨
     (∃ e, select_best_bkmr env st = (Ok tt, after_exception e (popped c st))) ∨
     (∃ e p, select_best_bkmr env st =
               (Ok tt, after_exception e (RFM_marked (bkmr_record c.2) p (popped c st)))) ∨
     select_best_bkmr env st =
       (Ok tt, rearmed (RFM_dropped (bkmr_record c.2) (popped c st))) ∨
     (∃ p, select_best_bkmr env st =
             (Ok tt, rearmed (RFM_asked env (bkmr_record c.2) p (popped c st))))).
Proof.
  rewrite select_best_bkmr_unfold, select_best_bkmr_try_spec.
  destruct (pq_min (bkmr_priorityq st)) as [[dscore dhash]|] eqn:Hmin.
  2:{ left. split; [by apply pq_min_None|]. by rewrite select_best_bkmr_except_after. }
  right. exists (dscore, dhash). split; [done|]. cbv zeta. simpl snd.
  assert ((∃ e, match RFM env (bkmr_record dhash) (popped (dscore, dhash) st) with
                | (Ok _, st2) => (Ok tt, rearmed st2)
                | (Raise e0, st2) => select_best_bkmr_except e0 st2
                end = (Ok tt, after_exception e (popped (dscore, dhash) st))) ∨
          (∃ e p, match RFM env (bkmr_record dhash) (popped (dscore, dhash) st) with
                  | (Ok _, st2) => (Ok tt, rearmed st2)
                  | (Raise e0, st2) => select_best_bkmr_except e0 st2
                  end = (Ok tt, after_exception e
                                  (RFM_marked (bkmr_record dhash) p
                                     (popped (dscore, dhash) st)))) ∨
          match RFM env (bkmr_record dhash) (popped (dscore, dhash) st) with
          | (Ok _, st2) => (Ok tt, rearmed st2)
          | (Raise e0, st2) => select_best_bkmr_except e0 st2
          end = (Ok tt, rearmed (RFM_dropped (bkmr_record dhash)
                                   (popped (dscore, dhash) st))) ∨
          (∃ p, match RFM env (bkmr_record dhash) (popped (dscore, dhash) st) with
                | (Ok _, st2) => (Ok tt, rearmed st2)
                | (Raise e0, st2) => select_best_bkmr_except e0 st2
                end = (Ok tt, rearmed (RFM_asked env (bkmr_record dhash) p
                                         (popped (dscore, dhash) st))))) as Hrequest.
  { destruct (RFM_result_cases env (bkmr_record dhash) (popped (dscore, dhash) st))
      as [[e ->]|[(e & p & ->)|[->|[p ->]]]].
    - left. exists e. apply select_best_bkmr_except_after.
    - right; left. exists e, p. apply select_best_bkmr_except_after.
    - by right; right; left.
    - right; right; right. by exists p. }
  assert (∀ (r : result unit * State),
            match (let (r0, st2) := r in
                   match r0 with
                   | Ok _ => (Ok tt, rearmed st2)
                   | Raise e0 => (Raise e0, st2)
                   end) with
            | (Ok a, st') => (Ok a, st')
            | (Raise e, st') => select_best_bkmr_except e st'
            end =
            match r with
            | (Ok _, st2) => (Ok tt, rearmed st2)
            | (Raise e0, st2) => select_best_bkmr_except e0 st2
            end) as Hflat by (by intros [[[]|e0] st2]).
  destruct (bkmr_blocknumber st <=? height env) eqn:Hle.
  - destruct (get_block_score env (bkmr_blocknumber st)) as [old|e].
    + destruct (dscore >? old) eqn:Hgt.
      * left. exists old. apply Z.leb_le in Hle. apply Z.gtb_gt in Hgt. done.
      * right. rewrite Hflat. exact Hrequest.
    + right; left. exists e. apply select_best_bkmr_except_after.
  - right. rewrite Hflat. exact Hrequest.
Qed.

Lemma pq_remove_perm c q : c ∈ q → q ≡ₚ c :: pq_remove c q.
Proof.
  induction q as [|x q IH]; intros Hin; [by apply elem_of_nil in Hin|].
  simpl. case_decide as Hx; [by subst|].
  apply elem_of_cons in Hin as [->|Hin]; [done|].
  rewrite (IH Hin) at 1. apply Permutation_swap.
Qed.

Lemma after_exception_fields e st :
  hash_msg (after_exception e st) = hash_msg st ∧
  requested_hash (after_exception e st) = requested_hash st ∧
  peer_connections (after_exception e st) = peer_connections st ∧
  synced_peers (after_exception e st) = synced_peers st ∧
  bkmr_blocknumber (after_exception e st) = bkmr_blocknumber st ∧
  bkmr_priorityq (after_exception e st) = bkmr_priorityq st ∧
  bkmr_processor (after_exception e st) = bkmr_processor st ∧
  last_ping (after_exception e st) = last_ping st ∧
  delayed_calls (after_exception e st) = delayed_calls st ∧
  (trace (after_exception e st) = trace st ∨
   trace (after_exception e st) =
     trace st ++ [LogError "select_best_bkmr Unexpected Exception"; LogErrorExn e]).
Proof. unfold after_exception. case_decide; simpl; split_and!; auto. Qed.

(** X7: no exception of class [Exception] leaves the selector step:
    whatever the queue and the tables hold, and whether the collaborators
    return or raise such an exception, the step returns to its caller.
    Exceptions outside [Exception] are not among those modelled. *)
Theorem select_best_bkmr_never_raises env st :
  (select_best_bkmr env st).1 = Ok tt.
Proof.
  destruct (select_best_bkmr_cases env st)
    as [[_ ->]|(c & _ & [(old & _ & _ & _ & ->)|[[e ->]|[(e & p & ->)|[->|[p ->]]]]])];
    done.
Qed.

(** X8: on an empty queue the selector step changes nothing: it writes to
    no peer, logs nothing and arms no call. *)
Theorem select_best_bkmr_empty_queue env st :
  bkmr_priorityq st = [] →
  select_best_bkmr env st = (Ok tt, st).
Proof.
  intros Hq. rewrite select_best_bkmr_unfold, select_best_bkmr_try_spec, Hq. simpl.
  done.
Qed.

(** The factory as constructed has an empty queue. *)
Lemma select_best_bkmr_empty_queue_witness :
  select_best_bkmr env_ok factory_init = (Ok tt, factory_init).
Proof. apply (select_best_bkmr_empty_queue env_ok factory_init). reflexivity. Defined.

(** X9: a selector step never adds a candidate.  On a queue that is not
    empty it either empties the queue or removes one occurrence of the
    least candidate and keeps all the others, so the queue gets strictly
    shorter. *)
Theorem select_best_bkmr_shrinks_queue env st :
  bkmr_priorityq st ≠ [] →
  (bkmr_priorityq (select_best_bkmr env st).2 = [] ∨
   ∃ c, pq_min (bkmr_priorityq st) = Some c ∧
        bkmr_priorityq st ≡ₚ c :: bkmr_priorityq (select_best_bkmr env st).2) ∧
  (length (bkmr_priorityq (select_best_bkmr env st).2) < length (bkmr_priorityq st))%nat.
Proof.
  intros Hne.
  assert (bkmr_priorityq (select_best_bkmr env st).2 = [] ∨
          ∃ c, pq_min (bkmr_priorityq st) = Some c ∧
               bkmr_priorityq st ≡ₚ c :: bkmr_priorityq (select_best_bkmr env st).2)
    as Hq.
  { destruct (select_best_bkmr_cases env st)
      as [[Hnil _]|(c & Hmin & Hcase)]; [done|].
    pose proof (pq_remove_perm c _ (proj1 (pq_min_least _ _ Hmin))) as Hperm.
    destruct Hcase as [(old & _ & _ & _ & ->)|[[e ->]|[(e & p & ->)|[->|[p ->]]]]].
    - by left.
    - right. exists c. split; [done|]. cbn [snd].
      unfold after_exception. by case_decide.
    - right. exists c. split; [done|]. cbn [snd].
      unfold after_exception. by case_decide.
    - right. by exists c.
    - right. by exists c. }
  split; [done|]. destruct Hq as [->|(c & _ & Hperm)].
  - destruct (bkmr_priorityq st); [done|simpl; lia].
  - rewrite Hperm. simpl. lia.
Qed.

(** Two candidates: the better one is taken, the other one stays. *)
Lemma select_best_bkmr_shrinks_queue_witness :
  (length (bkmr_priorityq
             (select_best_bkmr env_ok (st_queue [(45%Z, hash_H2); (40%Z, hash_H1)])).2) <
   length (bkmr_priorityq (st_queue [(45%Z, hash_H2); (40%Z, hash_H1)])))%nat.
Proof.
  apply (select_best_bkmr_shrinks_queue env_ok
           (st_queue [(45%Z, hash_H2); (40%Z, hash_H1)])).
  discriminate.
Defined.

Lemma RFM_score_irrelevant score env data st :
  RFM (with_get_block_score score env) data st = RFM env data st.
Proof. by rewrite !RFM_spec. Qed.

(** X10: when the tracked block number is beyond the chain's height the
    scoring collaborator is not consulted: the step does the same whatever
    that collaborator would return or raise. *)
Theorem select_best_bkmr_ignores_score_beyond_height env st score :
  height env < bkmr_blocknumber st →
  select_best_bkmr (with_get_block_score score env) st = select_best_bkmr env st.
Proof.
  intros Hlt. rewrite !select_best_bkmr_unfold, !select_best_bkmr_try_spec.
  destruct (pq_min (bkmr_priorityq st)) as [[dscore dhash]|]; [|done].
  cbv zeta. simpl height. rewrite (proj2 (Z.leb_gt _ _) Hlt).
  by rewrite RFM_score_irrelevant.
Qed.

(** The selector tracks height 11 on a chain of height 10 whose scoring
    collaborator raises. *)
Lemma select_best_bkmr_ignores_score_beyond_height_witness :
  select_best_bkmr env_score_raises
    (mkState ∅ ∅ [] [] 11 [(40, hash_H1)] 0 None [] 1 []) =
  select_best_bkmr env_ok (mkState ∅ ∅ [] [] 11 [(40, hash_H1)] 0 None [] 1 []).
Proof.
  apply (select_best_bkmr_ignores_score_beyond_height env_ok
           (mkState ∅ ∅ [] [] 11 [(40, hash_H1)] 0 None [] 1 [])
           (fun _ => Raise (OtherException "score"))).
  simpl. lia.
Defined.

(** X11: what a selector step can touch.  It leaves the fully known
    messages, the connection list, the synced peers, the tracked block
    number and the last ping as they were, and changes no request state
    but that of a queued candidate's hash.  The calls it makes are none, or
    one request for a block record of a queued candidate's hash, or its two
    error lines. *)
Theorem select_best_bkmr_frame env st :
  hash_msg (select_best_bkmr env st).2 = hash_msg st ∧
  peer_connections (select_best_bkmr env st).2 = peer_connections st ∧
  synced_peers (select_best_bkmr env st).2 = synced_peers st ∧
  bkmr_blocknumber (select_best_bkmr env st).2 = bkmr_blocknumber st ∧
  last_ping (select_best_bkmr env st).2 = last_ping st ∧
  (∀ other, (∀ c, c ∈ bkmr_priorityq st → other ≠ c.2) →
     requested_hash (select_best_bkmr env st).2 !! other = requested_hash st !! other) ∧
  ∃ evs,
    trace (select_best_bkmr env st).2 = trace st ++ evs ∧
    (evs = [] ∨
     (∃ p c, c ∈ bkmr_priorityq st ∧ evs = [Write p (SFM (bkmr_record c.2))]) ∨
     (∃ e, evs = [LogError "select_best_bkmr Unexpected Exception"; LogErrorExn e])).
Proof.
  destruct (select_best_bkmr_cases env st)
    as [[_ ->]|(c & Hmin & Hcase)].
  { split_and!; try done. exists []. rewrite app_nil_r. auto. }
  apply pq_min_least in Hmin as [Hin _].
  assert (∀ e st1,
            ∃ evs, trace (after_exception e st1) = trace st1 ++ evs ∧
              (evs = [] ∨
               (∃ p c, c ∈ bkmr_priorityq st ∧ evs = [Write p (SFM (bkmr_record c.2))]) ∨
               (∃ e, evs = [LogError "select_best_bkmr Unexpected Exception";
                            LogErrorExn e]))) as Hlog.
  { intros e st1. unfold after_exception. case_decide.
    - exists []. rewrite app_nil_r. auto.
    - eexists. split; [done|]. right; right. by exists e. }
  destruct Hcase as [(old & _ & _ & _ & ->)|[[e ->]|[(e & p & ->)|[->|[p ->]]]]];
    cbn [snd].
  - split_and!; try done. exists []. simpl. rewrite app_nil_r. auto.
  - destruct (after_exception_fields e (popped c st))
      as (-> & -> & -> & -> & -> & _ & _ & -> & _ & _).
    split_and!; try done. exact (Hlog e (popped c st)).
  - destruct (after_exception_fields e (RFM_marked (bkmr_record c.2) p (popped c st)))
      as (-> & -> & -> & -> & -> & _ & _ & -> & _ & _).
    split_and!; try done.
    + intros other Hother. simpl. apply lookup_alter_ne. intros Heq.
      by apply (Hother c Hin).
    + exact (Hlog e (RFM_marked (bkmr_record c.2) p (popped c st))).
  - simpl. split_and!; try done.
    + intros other Hother. apply lookup_delete_ne. intros Heq. by apply (Hother c Hin).
    + exists []. rewrite app_nil_r. auto.
  - simpl. split_and!; try done.
    + intros other Hother. rewrite !lookup_alter_ne; [done| |];
        intros Heq; by apply (Hother c Hin).
    + eexists. split; [done|]. right; left. by exists p, c.
Qed.

(** X12: a queue that holds a candidate at least as good as the chain's
    accepted score at the tracked height is never discarded: the step
    removes one occurrence of the least candidate and nothing else. *)
Theorem select_best_bkmr_keeps_competitive_queue env st oldscore x :
  get_block_score env (bkmr_blocknumber st) = Ok oldscore →
  x ∈ bkmr_priorityq st →
  x.1 ≤ oldscore →
  ∃ c, pq_min (bkmr_priorityq st) = Some c ∧
       c.1 ≤ x.1 ∧
       bkmr_priorityq (select_best_bkmr env st).2 = pq_remove c (bkmr_priorityq st).
Proof.
  intros Hscore Hx Hle.
  destruct (select_best_bkmr_cases env st)
    as [[Hnil _]|(c & Hmin & Hcase)].
  { rewrite Hnil in Hx. by apply elem_of_nil in Hx. }
  exists c. pose proof (proj2 (pq_min_least _ _ Hmin) x Hx) as Hc.
  split_and!; [done|done|].
  destruct Hcase as [(old & _ & Hold & Hgt & _)|[[e ->]|[(e & p & ->)|[->|[p ->]]]]];
    cbn [snd].
  - rewrite Hscore in Hold. injection Hold as <-. lia.
  - unfold after_exception. by case_decide.
  - unfold after_exception. by case_decide.
  - done.
  - done.
Qed.

(** Accepted score 50: the candidate 40 is taken and the candidate 60
    stays queued. *)
Lemma select_best_bkmr_keeps_competitive_queue_witness :
  ∃ c, pq_min [(60, hash_H2); (40, hash_H1)] = Some c ∧
       c.1 ≤ 40 ∧
       bkmr_priorityq
         (select_best_bkmr env_ok (st_queue [(60, hash_H2); (40, hash_H1)])).2 =
       pq_remove c [(60, hash_H2); (40, hash_H1)].
Proof.
  apply (select_best_bkmr_keeps_competitive_queue env_ok
           (st_queue [(60, hash_H2); (40, hash_H1)]) 50 (40, hash_H1)).
  - reflexivity.
  - right. left.
  - simpl. lia.
Defined.

(** ** Further properties of the probes and of the broadcaster *)

Lemma written_ext env1 env2 l :
  (∀ p, p ∈ l → transport_write env1 p = transport_write env2 p) →
  written env1 l = written env2 l ∧ write_failure env1 l = write_failure env2 l.
Proof.
  intros Hext. induction l as [|q l IH]; simpl; [done|].
  rewrite <- (Hext q) by (by left).
  destruct (transport_write env1 q); [done|].
  destruct IH as [-> ->]; [|done]. intros p Hp. apply Hext. by right.
Qed.

Lemma filter_none (P : peer → Prop) `{∀ p, Decision (P p)} (l : list peer) :
  (∀ p, p ∈ l → ¬ P p) → filter P l = [].
Proof.
  intros Hall. induction l as [|q l IH]; [done|].
  rewrite filter_cons, decide_False by (apply Hall; by left).
  apply IH. intros p Hp. apply Hall. by right.
Qed.

Lemma get_synced_state_spec env st :
  get_synced_state env st =
    (outcome (write_failure env (peer_connections st)),
     with_trace (trace st ++ sync_requests (written env (peer_connections st)))
       (with_synced_peers [] st)).
Proof.
  unfold get_synced_state. unfold_m. simpl. by rewrite write_all_spec.
Qed.

Lemma register_and_broadcast_spec env msg_type msg_hash msg_json data st :
  register_and_broadcast env msg_type msg_hash msg_json data st =
    broadcast env msg_hash msg_type
      (Some (registered_record msg_type msg_hash data))
      (registered msg_hash msg_json msg_type st).
Proof. done. Qed.

(** X13: [ping_peers] records the time of the ping before it writes to any
    peer, so the time is recorded in every outcome; when no transport
    raises it returns having written one ping to each connected peer, in
    connection order, after its log line. *)
Theorem ping_peers_reaches_every_peer env st :
  last_ping (ping_peers env st).2 = Some (time_now env) ∧
  ((∀ p, p ∈ peer_connections st → transport_write env p = None) →
   (ping_peers env st).1 = Ok tt ∧
   trace (ping_peers env st).2 =
     trace st ++ LogInfo "<<<Transmitting network PING" :: pings (peer_connections st)).
Proof.
  rewrite ping_peers_spec. split; [done|]. intros Hok.
  by destruct (written_all env (peer_connections st) Hok) as [-> ->].
Qed.

(** Three connected peers with working transports. *)
Lemma ping_peers_reaches_every_peer_witness :
  trace (ping_peers env_ok st_connected).2 =
    LogInfo "<<<Transmitting network PING" :: pings [1%nat; 2%nat; 3%nat].
Proof.
  destruct (ping_peers_reaches_every_peer env_ok st_connected) as [_ Hall].
  destruct Hall as [_ Htrace]; [intros p _; reflexivity|]. exact Htrace.
Defined.

(** X14: [get_synced_state] empties the set of synced peers in every
    outcome and changes no table; when no transport raises it returns
    having written one sync request to each connected peer, in connection
    order. *)
Theorem get_synced_state_resets_and_asks env st :
  synced_peers (get_synced_state env st).2 = [] ∧
  hash_msg (get_synced_state env st).2 = hash_msg st ∧
  requested_hash (get_synced_state env st).2 = requested_hash st ∧
  peer_connections (get_synced_state env st).2 = peer_connections st ∧
  ((∀ p, p ∈ peer_connections st → transport_write env p = None) →
   (get_synced_state env st).1 = Ok tt ∧
   trace (get_synced_state env st).2 =
     trace st ++ sync_requests (peer_connections st)).
Proof.
  rewrite get_synced_state_spec. split_and!; try done. intros Hok.
  by destruct (written_all env (peer_connections st) Hok) as [-> ->].
Qed.

(** Three connected peers with working transports. *)
Lemma get_synced_state_resets_and_asks_witness :
  trace (get_synced_state env_ok st_connected).2 =
    sync_requests [1%nat; 2%nat; 3%nat].
Proof.
  destruct (get_synced_state_resets_and_asks env_ok st_connected)
    as (_ & _ & _ & _ & Hall).
  destruct Hall as [_ Htrace]; [intros p _; reflexivity|]. exact Htrace.
Defined.

(** X15: [broadcast] does not touch the transport of a peer it leaves
    out: two environments that agree on the transports of the connected
    peers outside the candidate list give the same outcome, and when every
    connected peer is in the candidate list the call returns without a
    write, whatever the transports do. *)
Theorem broadcast_skips_ignored_transports env msg_hash msg_type data st :
  (∀ env',
     (∀ p, p ∈ peer_connections st → p ∉ ignore_peers_of st msg_hash →
           transport_write env' p = transport_write env p) →
     broadcast env' msg_hash msg_type data st = broadcast env msg_hash msg_type data st) ∧
  ((∀ p, p ∈ peer_connections st → p ∈ ignore_peers_of st msg_hash) →
   broadcast env msg_hash msg_type data st = (Ok tt, st)).
Proof.
  split.
  - intros env' Hext. rewrite !broadcast_outcome.
    destruct (written_ext env' env
                (filter (fun p => p ∉ ignore_peers_of st msg_hash) (peer_connections st)))
      as [-> ->]; [|done].
    intros p Hp. apply list_elem_of_filter in Hp as [? ?]. by apply Hext.
  - intros Hall. rewrite broadcast_outcome, filter_none.
    + simpl. unfold announces. simpl. by rewrite app_nil_r, with_trace_id.
    + intros p Hp Hnot. by apply Hnot, Hall.
Qed.

(** Both connected peers announced [hash_H1]; the transport of peer 1
    raises, and still the call returns. *)
Lemma broadcast_skips_ignored_transports_witness :
  broadcast env_peer1_fails hash_H1 "TX" None st_all_announced =
    (Ok tt, st_all_announced).
Proof.
  destruct (broadcast_skips_ignored_transports env_peer1_fails hash_H1 "TX" None
              st_all_announced) as [_ Hnone].
  apply Hnone. intros p Hp. exact Hp.
Defined.

(** X16: when no transport of a connected peer outside the candidate list
    raises, [broadcast] returns and the calls it made are exactly one write
    of the announce per connection outside the candidate list, in
    connection order: a peer that is connected twice is written to
    twice. *)
Theorem broadcast_writes_in_connection_order env msg_hash msg_type data st :
  (∀ p, p ∈ peer_connections st → p ∉ ignore_peers_of st msg_hash →
        transport_write env p = None) →
  broadcast env msg_hash msg_type data st =
    (Ok tt,
     with_trace
       (trace st ++
        announces (announce_record msg_hash msg_type data)
          (filter (fun p => p ∉ ignore_peers_of st msg_hash) (peer_connections st)))
       st).
Proof.
  intros Hok. rewrite broadcast_outcome.
  destruct (written_all env
              (filter (fun p => p ∉ ignore_peers_of st msg_hash) (peer_connections st)))
    as [-> ->]; [|done].
  intros p Hp. apply list_elem_of_filter in Hp as [? ?]. by apply Hok.
Qed.

(** Peer 2 announced [hash_H1] and the transport of peer 2 is irrelevant. *)
Lemma broadcast_writes_in_connection_order_witness :
  trace (broadcast env_ok hash_H1 "TX" None st_connected_announced).2 =
    announces (minimal_record hash_H1 "TX") [1%nat; 3%nat].
Proof.
  rewrite (broadcast_writes_in_connection_order env_ok hash_H1 "TX" None
             st_connected_announced); [reflexivity|].
  intros p _ _. reflexivity.
Defined.

(** X17: once [register_and_broadcast] has run for a hash, whatever its
    outcome, [RFM] for that hash asks no peer: it returns, leaves no
    request state for the hash, writes nothing and arms no call. *)
Theorem RFM_after_register_and_broadcast env env' msg_type msg_hash msg_json data
    request st :
  mr_hash request = msg_hash →
  (RFM env' request
     (register_and_broadcast env msg_type msg_hash msg_json data st).2).1 = Ok tt ∧
  requested_hash
    (RFM env' request
       (register_and_broadcast env msg_type msg_hash msg_json data st).2).2
    !! msg_hash = None ∧
  trace
    (RFM env' request
       (register_and_broadcast env msg_type msg_hash msg_json data st).2).2 =
    trace (register_and_broadcast env msg_type msg_hash msg_json data st).2 ∧
  delayed_calls
    (RFM env' request
       (register_and_broadcast env msg_type msg_hash msg_json data st).2).2 =
    delayed_calls st.
Proof.
  intros <-.
  set (st1 := (register_and_broadcast env msg_type (mr_hash request) msg_json data st).2).
  assert (hash_msg st1 !! mr_hash request = Some (msg_json, msg_type)) as Hk.
  { unfold st1. rewrite register_and_broadcast_spec, broadcast_outcome. simpl.
    apply lookup_insert_eq. }
  assert (delayed_calls st1 = delayed_calls st) as Hcalls.
  { unfold st1. by rewrite register_and_broadcast_spec, broadcast_outcome. }
  rewrite RFM_spec, Hk. simpl. split_and!; [done|apply lookup_delete_eq|done|done].
Qed.

(** Three peers announced [hash_H1]; the node then registers it itself. *)
Lemma RFM_after_register_and_broadcast_witness :
  requested_hash
    (RFM env_ok (bkmr_record hash_H1)
       (register_and_broadcast env_ok "TX" hash_H1 "{}" None st_announced).2).2
    !! hash_H1 = None.
Proof.
  destruct (RFM_after_register_and_broadcast env_ok env_ok "TX" hash_H1 "{}" None
              (bkmr_record hash_H1) st_announced eq_refl) as (_ & Hgone & _).
  exact Hgone.
Defined.

(** ** The peer registry and the senders *)

Lemma connect_peers_found_spec net peer_address conns :
  connect_peers_found net peer_address conns = true ↔
  peer_address ∈ map (host net) conns.
Proof.
  induction conns as [|p conns IH]; simpl.
  - split; [done|]. intros H. by apply elem_of_nil in H.
  - case_decide as Heq.
    + split; [|done]. intros _. rewrite Heq. by left.
    + rewrite IH. split; [by right|].
      intros H. apply elem_of_cons in H as [H|H]; [done|done].
Qed.

Lemma connect_peers_loop_spec net addresses conns :
  connect_peers_loop net addresses conns =
    attempts (filter (fun a => a ∉ map (host net) conns) addresses).
Proof.
  induction addresses as [|a addresses IH]; simpl; [done|].
  rewrite filter_cons.
  destruct (connect_peers_found net a conns) eqn:Hfound.
  - apply connect_peers_found_spec in Hfound. by rewrite decide_False by tauto.
  - rewrite decide_True; [simpl; by rewrite IH|].
    intros Hin. apply connect_peers_found_spec in Hin. congruence.
Qed.

Lemma connect_peers_spec net st :
  connect_peers net st =
    (Ok (attempts
           (filter (fun a => a ∉ map (host net) (peer_connections st))
              (peer_addresses net))),
     with_trace
       (trace st ++
        [LogInfo ("<<<Reconnecting to peer list: " ++
                  repr_addresses net (peer_addresses net))]) st).
Proof.
  unfold connect_peers. unfold_m. simpl. by rewrite connect_peers_loop_spec.
Qed.

(** X19: [connect_peers] asks for a connection, on port 9000, to exactly
    the configured addresses that are the remote host of no current
    session, in the order of the address list and once per occurrence in
    it; it changes nothing in the factory and only logs its line. *)
Theorem connect_peers_attempts_unconnected net st :
  ∃ made,
    connect_peers net st =
      (Ok made,
       with_trace
         (trace st ++
          [LogInfo ("<<<Reconnecting to peer list: " ++
                    repr_addresses net (peer_addresses net))]) st) ∧
    made =
      attempts
        (filter (fun a => a ∉ map (host net) (peer_connections st))
           (peer_addresses net)) ∧
    ∀ a port,
      (a, port) ∈ made ↔
      port = 9000 ∧ a ∈ peer_addresses net ∧
      ∀ p, p ∈ peer_connections st → host net p ≠ a.
Proof.
  eexists. split; [apply connect_peers_spec|]. split; [done|].
  intros a port. unfold attempts. rewrite list_elem_of_fmap. split.
  - intros (b & [= -> ->] & Hb). apply list_elem_of_filter in Hb as [Hnot Hb].
    split_and!; [done|done|]. intros p Hp Heq. apply Hnot.
    apply list_elem_of_fmap. eauto.
  - intros (-> & Ha & Hnone). exists a. split; [done|].
    apply list_elem_of_filter. split; [|done].
    intros Hin. apply list_elem_of_fmap in Hin as (p & -> & Hp). by apply (Hnone p).
Qed.

(** X20: [connect_peers] makes no attempt when every configured address
    is the remote host of a session, and, since the call itself adds no
    session, calling it again before a connection is established asks for
    the same connections once more. *)
Theorem connect_peers_repeated net st :
  ((∀ a, a ∈ peer_addresses net → ∃ p, p ∈ peer_connections st ∧ host net p = a) →
   (connect_peers net st).1 = Ok []) ∧
  (connect_peers net (connect_peers net st).2).1 = (connect_peers net st).1.
Proof.
  rewrite !connect_peers_spec. split; [|done].
  intros Hall. simpl. f_equal.
  induction (peer_addresses net) as [|a l IH]; [done|].
  rewrite filter_cons, decide_False.
  - apply IH. intros b Hb. apply Hall. by right.
  - intros Hnot. apply Hnot. destruct (Hall a) as (p & Hp & <-); [by left|].
    apply list_elem_of_fmap. eauto.
Qed.

(** Sessions exist with 10.0.0.1 only; after one more with 10.0.0.2 no
    attempt is made. *)
Lemma connect_peers_repeated_witness :
  (connect_peers
     (mkNet ["10.0.0.1"; "10.0.0.2"]
        (fun p => if decide (p = 3%nat) then "10.0.0.2" else "10.0.0.1")
        (fun _ => ""))
     st_connected).1 = Ok [].
Proof.
  destruct (connect_peers_repeated
              (mkNet ["10.0.0.1"; "10.0.0.2"]
                 (fun p => if decide (p = 3%nat) then "10.0.0.2" else "10.0.0.1")
                 (fun _ => ""))
              st_connected) as [Hnone _].
  apply Hnone. intros a Ha.
  apply elem_of_cons in Ha as [->|Ha].
  - exists 1%nat. split; [left|reflexivity].
  - apply list_elem_of_singleton in Ha as ->.
    exists 3%nat. split; [right; right; left|reflexivity].
Defined.




